(** * brandur-singularity: the build orchestrator, its task pool and helpers

    Shallow embedding of the static-site build command (the [package main]
    that hands its tasks to package [pool]) and of the first, channel-based
    version of the same command ([main.go]), together with proofs of the
    properties the specification states about them.

    Conventions.
    - Go's [error] is [option GoError]: [None] is [nil].
    - A job ([func() error]) has side effects; it is a function from the
      state of the outside world to a result and a new world.  The closures
      the program builds are defunctionalised: a job is a value of a type
      [J] together with an interpretation [call].
    - Goroutines are interleaved by an explicit schedule: a list of actor
      identifiers, each entry letting that actor take its next atomic step.
      A job is one atomic step.
    - Package [pool] is not among the sources; it is modelled from the
      specification, as a transition system over the state of a run. *)

From Stdlib Require Import ZArith Lia Ascii.
From stdpp Require Import gmap strings list fin_maps.

(** A non-nil Go [error], identified with its message. *)
Definition GoError := string.

(** ** logrus output

    [log.Error] is called at two places of [runTasks], once with a task's
    [error] and once with a string literal; the two call sites are kept
    apart by the constructor. *)
Inductive LogEntry :=
| LogErrorErr (e : GoError)     (* log.Error(task.Err) *)
| LogErrorStr (s : string).     (* log.Error("Too many errors.") *)

Definition TooManyErrors : LogEntry := LogErrorStr "Too many errors.".

Definition is_failure_line (l : LogEntry) : bool :=
  match l with LogErrorErr _ => true | LogErrorStr _ => false end.

(** * The task pool *)
Module pool.

(** Modelled from the spec: the recorded outcome of a Task, [not yet run],
    [succeeded] or [failed(error)]. *)
Inductive Outcome :=
| NotYetRun
| Succeeded
| Failed (e : GoError).

Definition is_failed (o : Outcome) : bool :=
  match o with Failed _ => true | _ => false end.

Definition is_set (o : Outcome) : bool :=
  match o with NotYetRun => false | _ => true end.

(** Modelled from the spec: what a worker stores on a Task when its job
    returned [r]. *)
Definition outcome_of (r : option GoError) : Outcome :=
  match r with None => Succeeded | Some e => Failed e end.

(** Modelled from the spec: a worker of the pool, waiting for a Task,
    executing Task [i], or terminated. *)
Inductive Worker :=
| Idle
| Busy (i : nat)
| Exited.

#[global] Instance Worker_eq_dec : EqDecision Worker.
Proof. solve_decision. Defined.

Definition is_busy (k : Worker) : bool :=
  match k with Busy _ => true | _ => false end.

Definition is_exited (k : Worker) : bool :=
  match k with Exited => true | _ => false end.

Section WithJobs.
Context {World J : Type}.
(** Invoking a job. *)
Variable call : J -> World -> option GoError * World.

(** Modelled from the spec: package [pool] is not among the sources.  A
    Task pairs a Job with the outcome of having run it ([not yet run],
    [succeeded], [failed(error)]).  [runs] is a ghost counter of the
    executions of the job; the program does not read it. *)
Record Task := mkTask {
  f : J;
  outcome : Outcome;
  runs : nat
}.

(** Modelled from the spec: [pool.NewTask], a Task is created once per
    Job, not yet run. *)
Definition NewTask (j : J) : Task :=
  {| f := j; outcome := NotYetRun; runs := 0 |}.

(** Modelled from the spec: the field [Err] that [runTasks] reads, non-nil
    exactly for a failed Task. *)
Definition Err (t : Task) : option GoError :=
  match outcome t with Failed e => Some e | _ => None end.

(** Modelled from the spec: the pool holds the list of Tasks to execute
    and a worker-count configuration value. *)
Record Pool := mkPool {
  Tasks : list Task;
  concurrency : Z
}.

(** Modelled from the spec: [pool.NewPool], one Task per Job, in the same
    order as submitted. *)
Definition NewPool (tasks : list Task) (conc : Z) : Pool :=
  {| Tasks := tasks; concurrency := conc |}.

(** Modelled from the spec: [HasErrors()] is true iff at least one Task's
    outcome is [failed]. *)
Definition HasErrors (p : Pool) : bool :=
  existsb (fun t => is_failed (outcome t)) (Tasks p).

(** Modelled from the spec: the state of a pool while [Run] is in progress,
    the Tasks, the shared pending set, the workers and the barrier. *)
Record RunState := mkRun {
  rs_tasks : list Task;        (* the Tasks, in submission order *)
  rs_pending : list nat;       (* shared pending set: indices into rs_tasks *)
  rs_workers : list Worker;    (* one entry per worker *)
  rs_barrier : nat;            (* tasks whose completion is not yet confirmed *)
  rs_world : World
}.

Definition record_outcome (t : Task) (r : option GoError) : Task :=
  {| f := f t; outcome := outcome_of r; runs := S (runs t) |}.

(** Modelled from the spec: the state in which [Run] starts.
    [workerCount] workers, every Task pending, the barrier waiting for all
    of them. *)
Definition start (p : Pool) (w : World) : RunState :=
  {| rs_tasks := Tasks p;
     rs_pending := seq 0 (length (Tasks p));
     rs_workers := replicate (Z.to_nat (concurrency p)) Idle;
     rs_barrier := length (Tasks p);
     rs_world := w |}.

(** Modelled from the spec: one atomic step of worker [w].  Workers pull
    Tasks from the shared pending set and execute each one, storing the
    resulting outcome on that Task and confirming its completion; a worker
    terminates once no Tasks remain.  [None]: the worker does not exist or
    has terminated. *)
Definition worker_step (w : nat) (s : RunState) : option RunState :=
  match rs_workers s !! w with
  | None | Some Exited => None
  | Some Idle =>
      match rs_pending s with
      | [] =>
          Some {| rs_tasks := rs_tasks s; rs_pending := [];
                  rs_workers := <[w := Exited]> (rs_workers s);
                  rs_barrier := rs_barrier s; rs_world := rs_world s |}
      | i :: rest =>
          Some {| rs_tasks := rs_tasks s; rs_pending := rest;
                  rs_workers := <[w := Busy i]> (rs_workers s);
                  rs_barrier := rs_barrier s; rs_world := rs_world s |}
      end
  | Some (Busy i) =>
      match rs_tasks s !! i with
      | None => None
      | Some t =>
          let '(r, world') := call (f t) (rs_world s) in
          Some {| rs_tasks := <[i := record_outcome t r]> (rs_tasks s);
                  rs_pending := rs_pending s;
                  rs_workers := <[w := Idle]> (rs_workers s);
                  rs_barrier := pred (rs_barrier s);
                  rs_world := world' |}
      end
  end.

(** Modelled from the spec: [Run] returns once completion of all Tasks
    has been confirmed (a synchronization barrier). *)
Definition returned (s : RunState) : bool := Nat.eqb (rs_barrier s) 0.

(** Modelled from the spec: the interleavings of the workers.  Any worker
    may move next, as long as [Run] has not returned. *)
Definition step (s s' : RunState) : Prop :=
  returned s = false /\ exists w, worker_step w s = Some s'.

Inductive steps : RunState -> RunState -> Prop :=
| steps_refl s : steps s s
| steps_next s1 s2 s3 : steps s1 s2 -> step s2 s3 -> steps s1 s3.

(** Modelled from the spec: [Run] under a schedule.  [sched] names the
    worker that moves next; an entry naming a worker that cannot move is
    skipped.  [None]: the schedule ended while [Run] was still blocked on
    the barrier. *)
Fixpoint Run_from (sched : list nat) (s : RunState) : option RunState :=
  if returned s then Some s
  else match sched with
       | [] => None
       | w :: sched' =>
           Run_from sched' (match worker_step w s with
                            | Some s' => s'
                            | None => s
                            end)
       end.

(** Modelled from the spec: [p.Run()], blocking until all Tasks have
    completed.  The result is the pool with its Tasks as they are after
    the run, and the world the jobs left behind. *)
Definition Run (sched : list nat) (p : Pool) (w : World) : option (Pool * World) :=
  match Run_from sched (start p w) with
  | Some s => Some ({| Tasks := rs_tasks s; concurrency := concurrency p |}, rs_world s)
  | None => None
  end.

(** *** Measures and the invariant of a run *)

(** How many workers satisfy [P]. *)
Fixpoint tally (P : Worker -> bool) (ws : list Worker) : nat :=
  match ws with
  | [] => 0
  | k :: ws => (if P k then 1 else 0) + tally P ws
  end.

(** The atomic steps a run can still take: a pull and an execution for
    each pending task, an execution for each busy worker, the exit of each
    worker. *)
Definition measure (s : RunState) : nat :=
  2 * length (rs_pending s) + tally is_busy (rs_workers s)
  + tally (fun k => negb (is_exited k)) (rs_workers s).

(** Task [t] is task [t0] after exactly one more execution of its job: its
    outcome is what the job returned in the world it was called in. *)
Definition ran_once (t0 t : Task) : Prop :=
  f t = f t0 /\ runs t = S (runs t0) /\
  exists w, outcome t = outcome_of (call (f t0) w).1.

(** The invariant of a run of [workerCount] workers over [tasks0]: the
    first [k] tasks have been pulled, the others are pending; a pulled task
    is either held by exactly one busy worker and untouched, or has run
    once. *)
Definition Inv (tasks0 : list Task) (workerCount : nat) (s : RunState) : Prop :=
  exists k,
    k <= length tasks0 /\
    rs_pending s = seq k (length tasks0 - k) /\
    length (rs_tasks s) = length tasks0 /\
    length (rs_workers s) = workerCount /\
    rs_barrier s = length tasks0 - k + tally is_busy (rs_workers s) /\
    (forall w i, rs_workers s !! w = Some (Busy i) -> i < k) /\
    (forall w1 w2 i, rs_workers s !! w1 = Some (Busy i) ->
                     rs_workers s !! w2 = Some (Busy i) -> w1 = w2) /\
    (k < length tasks0 -> forall w, rs_workers s !! w <> Some Exited) /\
    (forall i t0, tasks0 !! i = Some t0 ->
       exists t, rs_tasks s !! i = Some t /\
         ((k <= i \/ exists w, rs_workers s !! w = Some (Busy i)) -> t = t0) /\
         (i < k -> (forall w, rs_workers s !! w <> Some (Busy i)) -> ran_once t0 t)).

End WithJobs.

Arguments Task : clear implicits.
Arguments Pool : clear implicits.
Arguments RunState : clear implicits.

End pool.


(** * The build command ([package main], pool-based version) *)
Module build.

(** [Conf], the configuration decoded from the environment. *)
Record Conf := mkConf {
  Concurrency : Z;
  GoogleAnalyticsID : string;
  LocalFonts : bool;
  Verbose : bool
}.

(** [isHidden]: [strings.HasPrefix(file, ".")]. *)
Definition isHidden (file : string) : bool := String.prefix "." file.

(** The closures [main] and [tasksForArticles] wrap into tasks, each with
    the variable it captures. *)
Inductive Closure :=
| LinkFonts                       (* func() error { return linkFonts() } *)
| LinkImages                      (* func() error { return linkImages() } *)
| CompileJavascripts              (* assets.CompileJavascripts(...) *)
| CompileStylesheets              (* assets.CompileStylesheets(...) *)
| CompileArticle (name : string). (* func() error { return compileArticle(name) } *)

(** How the process ends. *)
Inductive Exit :=
| Return                (* main returns *)
| Fatal (e : GoError)   (* log.Fatal(err): logs, then os.Exit(1) *)
| OsExit (code : Z).    (* os.Exit(code) *)

Definition exit_status (x : Exit) : Z :=
  match x with
  | Return => 0
  | Fatal _ => 1
  | OsExit code => code
  end.

(** The loop of [runTasks] over [p.Tasks], from the task the iteration is
    at, with the current value of [numErrors].  [numErrors] is a Go [int];
    the loop leaves at 10, far from wrap-around. *)
Fixpoint report {J : Type} (tasks : list (pool.Task J)) (numErrors : Z) : list LogEntry :=
  match tasks with
  | [] => []
  | task :: rest =>
      let logged := match pool.Err task with
                    | Some e => [LogErrorErr e]
                    | None => []
                    end in
      let numErrors := match pool.Err task with
                       | Some _ => (numErrors + 1)%Z
                       | None => numErrors
                       end in
      if (10 <=? numErrors)%Z
      then logged ++ [TooManyErrors]
      else logged ++ report rest numErrors
  end.

(** The errors of the tasks that failed, in the order of the tasks. *)
Definition failures {J : Type} (tasks : list (pool.Task J)) : list GoError :=
  omap pool.Err tasks.

Section WithWorld.
Context {World J : Type}.
Variable call : J -> World -> option GoError * World.

(** What [runTasks] produces: its boolean result, the lines it logged, the
    tasks as the pool left them and the world after the jobs. *)
Record Ran := mkRan {
  ok : bool;
  logged : list LogEntry;
  tasks_after : list (pool.Task J);
  world_after : World
}.

(** [runTasks].  [conc] is [conf.Concurrency]; [sched] is the interleaving
    of the pool's workers.  [None]: [p.Run()] does not return under
    [sched]. *)
Definition runTasks (conc : Z) (sched : list nat) (tasks : list (pool.Task J))
    (w : World) : option Ran :=
  let p := pool.NewPool tasks conc in
  match pool.Run call sched p w with
  | None => None
  | Some (p, w') =>
      Some {| ok := negb (pool.HasErrors p);
              logged := report (pool.Tasks p) 0;
              tasks_after := pool.Tasks p;
              world_after := w' |}
  end.

End WithWorld.

Arguments Ran : clear implicits.

Section Main.
Context {World : Type}.
(** The collaborators of [main]: the bodies of the closures,
    [envdecode.Decode], [singularity.CreateOutputDirs] and [os.ReadDir]
    (the names of the entries, in the order of the listing). *)
Variable call : Closure -> World -> option GoError * World.
Variable Decode : World -> GoError + Conf.
Variable CreateOutputDirs : World -> option GoError * World.
Variable ReadDir : World -> string -> GoError + list string.
(** [path.Join(singularity.ContentDir, "articles")]. *)
Variable articlesPath : string.

(** [tasksForArticles]. *)
Definition tasksForArticles (w : World) : GoError + list (pool.Task Closure) :=
  match ReadDir w articlesPath with
  | inl err => inl err
  | inr files =>
      inr (fold_left
             (fun tasks name =>
                if isHidden name then tasks
                else tasks ++ [pool.NewTask (CompileArticle name)])
             files [])
  end.

(** What is observed of a run of [main]: how it exits, and what
    [runTasks] did when it was reached. *)
Record MainResult := mkMain {
  exit : Exit;
  ran : option (Ran World Closure);
  final_world : World
}.

(** [main].  [None]: the pool's [Run] does not return under [sched]. *)
Definition main (sched : list nat) (w : World) : option MainResult :=
  match Decode w with
  | inl err => Some {| exit := Fatal err; ran := None; final_world := w |}
  | inr conf =>
      match CreateOutputDirs w with
      | (Some err, w) => Some {| exit := Fatal err; ran := None; final_world := w |}
      | (None, w) =>
          let tasks := [pool.NewTask LinkFonts] in
          let tasks := tasks ++ [pool.NewTask LinkImages] in
          let tasks := tasks ++ [pool.NewTask CompileJavascripts] in
          let tasks := tasks ++ [pool.NewTask CompileStylesheets] in
          match tasksForArticles w with
          | inl err => Some {| exit := Fatal err; ran := None; final_world := w |}
          | inr articleTasks =>
              let tasks := tasks ++ articleTasks in
              match runTasks call (Concurrency conf) sched tasks w with
              | None => None
              | Some r =>
                  Some {| exit := if ok r then Return else OsExit 1;
                          ran := Some r;
                          final_world := world_after r |}
              end
          end
      end
  end.

End Main.

Arguments MainResult : clear implicits.

(** ** [getLocals] *)

(** The values the program stores behind [interface{}]. *)
Inductive Value :=
| VString (s : string)
| VBool (b : bool).

(** [getLocals].  [conf] is the global configuration, [Release] is
    [singularity.Release].  Go visits the keys of [locals] once each, in an
    order it does not specify; [map_fold] visits them in the order of the
    map's list of entries. *)
Definition getLocals (conf : Conf) (Release : string) (title : string)
    (locals : gmap string Value) : gmap string Value :=
  let defaults : gmap string Value :=
    <["GoogleAnalyticsID" := VString (GoogleAnalyticsID conf)]>
    (<["LocalFonts" := VBool (LocalFonts conf)]>
    (<["Release" := VString Release]>
    (<["Title" := VString title]>
    (<["ViewportWidth" := VString "device-width"]> ∅)))) in
  map_fold (fun k v defaults => <[k := v]> defaults) defaults locals.

End build.


(** * The first version of the command ([main.go] of the repository root) *)
Module legacy.

Definition ArticlesDir : string := "./articles/".
Definition PagesDir : string := "./pages/".
Definition TargetDir : string := "./public/".
Definition Concurrency : nat := 10.

(** Capacity of the buffered channel [jobs]. *)
Definition jobsCap : nat := 1000.

(** The closures sent on [jobs], each with the variable it captures. *)
Inductive Job :=
| LinkAssets                       (* func() error { return linkAssets() } *)
| RenderArticle (file : string)    (* renderArticle(localFileInfo.Name()) *)
| RenderPage (file : string).      (* renderPage(trimExtension(localFileInfo.Name())) *)

(** Control points of [main]. *)
Inductive MainPc :=
| MMkdir                                   (* err := os.MkdirAll(TargetDir, 0755) *)
| MSendErr (e : option GoError) (k : MainPc)  (* errors <- err, then go on at k *)
| MSubmitLink                              (* wg.Add(1); jobs <- linkAssets *)
| MGenArticles                             (* generateArticleJobs() *)
| MGenPages (articleJobs : list Job)       (* generatePageJobs() *)
| MAdd (articleJobs pageJobs : list Job)   (* wg.Add(len(articleJobs) + len(pageJobs)) *)
| MFeed (rest : list Job)                  (* for ... { jobs <- job } *)
| MWait                                    (* wg.Wait() *)
| MReturned.

(** Control points of a worker goroutine:
    [for job := range jobs { errors <- job(); wg.Done() }]. *)
Inductive Worker :=
| WRecv                        (* waiting to receive from jobs *)
| WRun (job : Job)             (* about to call job() *)
| WSend (r : option GoError)   (* errors <- r *)
| WDone.                       (* wg.Done() *)

(** Control points of the goroutine that drains [errors]:
    [for err := range errors { if err != nil { panic(err) } }]. *)
Inductive Drain :=
| DWait                        (* waiting to receive from errors *)
| DGot (e : option GoError)    (* received, about to test err != nil *)
| DPanicked.                   (* panic(err): the process dies *)

Inductive Actor :=
| AMain
| AWorker (i : nat)
| ADrain.

Section WithWorld.
Context {World : Type}.
Variable call : Job -> World -> option GoError * World.
Variable MkdirAll : World -> string -> option GoError * World.
Variable ReadDir : World -> string -> GoError + list string.

(** [generateArticleJobs]: a slice of [len(files)] closures, one per entry
    of the listing. *)
Definition generateArticleJobs (w : World) : list Job * option GoError :=
  match ReadDir w ArticlesDir with
  | inl err => ([], Some err)
  | inr files => (map RenderArticle files, None)
  end.

(** [generatePageJobs]. *)
Definition generatePageJobs (w : World) : list Job * option GoError :=
  match ReadDir w PagesDir with
  | inl err => ([], Some err)
  | inr files => (map RenderPage files, None)
  end.

Record State := mkState {
  st_main : MainPc;
  st_jobs : list Job;          (* contents of the channel jobs, oldest first *)
  st_workers : list Worker;
  st_drain : Drain;
  st_wg : Z;                   (* counter of the WaitGroup *)
  st_world : World;
  st_executed : list Job;      (* ghost: the jobs called so far, in order *)
  st_submitted : list Job      (* ghost: the jobs sent on jobs so far, in order *)
}.

Definition init (w : World) : State :=
  {| st_main := MMkdir; st_jobs := []; st_workers := replicate Concurrency WRecv;
     st_drain := DWait; st_wg := 0; st_world := w; st_executed := [];
     st_submitted := [] |}.

(** The process is over once [main] has returned or a goroutine has
    panicked. *)
Definition over (s : State) : bool :=
  match st_main s, st_drain s with
  | MReturned, _ => true
  | _, DPanicked => true
  | _, _ => false
  end.

Definition set_main (pc : MainPc) (s : State) : State :=
  {| st_main := pc; st_jobs := st_jobs s; st_workers := st_workers s;
     st_drain := st_drain s; st_wg := st_wg s; st_world := st_world s;
     st_executed := st_executed s; st_submitted := st_submitted s |}.

Definition set_worker (i : nat) (k : Worker) (s : State) : State :=
  {| st_main := st_main s; st_jobs := st_jobs s;
     st_workers := <[i := k]> (st_workers s);
     st_drain := st_drain s; st_wg := st_wg s; st_world := st_world s;
     st_executed := st_executed s; st_submitted := st_submitted s |}.

Definition set_drain (d : Drain) (s : State) : State :=
  {| st_main := st_main s; st_jobs := st_jobs s; st_workers := st_workers s;
     st_drain := d; st_wg := st_wg s; st_world := st_world s;
     st_executed := st_executed s; st_submitted := st_submitted s |}.

Definition set_jobs (js : list Job) (s : State) : State :=
  {| st_main := st_main s; st_jobs := js; st_workers := st_workers s;
     st_drain := st_drain s; st_wg := st_wg s; st_world := st_world s;
     st_executed := st_executed s; st_submitted := st_submitted s |}.

Definition note_submitted (j : Job) (s : State) : State :=
  {| st_main := st_main s; st_jobs := st_jobs s; st_workers := st_workers s;
     st_drain := st_drain s; st_wg := st_wg s; st_world := st_world s;
     st_executed := st_executed s; st_submitted := st_submitted s ++ [j] |}.

Definition add_wg (n : Z) (s : State) : State :=
  {| st_main := st_main s; st_jobs := st_jobs s; st_workers := st_workers s;
     st_drain := st_drain s; st_wg := (st_wg s + n)%Z; st_world := st_world s;
     st_executed := st_executed s; st_submitted := st_submitted s |}.

Definition set_world (w : World) (s : State) : State :=
  {| st_main := st_main s; st_jobs := st_jobs s; st_workers := st_workers s;
     st_drain := st_drain s; st_wg := st_wg s; st_world := w;
     st_executed := st_executed s; st_submitted := st_submitted s |}.

Definition note_executed (j : Job) (s : State) : State :=
  {| st_main := st_main s; st_jobs := st_jobs s; st_workers := st_workers s;
     st_drain := st_drain s; st_wg := st_wg s; st_world := st_world s;
     st_executed := st_executed s ++ [j]; st_submitted := st_submitted s |}.

(** A send on the unbuffered channel [errors] completes only together with
    the receive of the draining goroutine. *)
Definition send_errors (e : option GoError) (s : State) : option State :=
  match st_drain s with
  | DWait => Some (set_drain (DGot e) s)
  | _ => None
  end.

(** A send on the buffered channel [jobs] blocks while it is full. *)
Definition send_jobs (j : Job) (s : State) : option State :=
  if decide (length (st_jobs s) < jobsCap)%nat
  then Some (set_jobs (st_jobs s ++ [j]) (note_submitted j s))
  else None.

(** One step of [main]; [None] when it is blocked or has returned. *)
Definition main_step (s : State) : option State :=
  match st_main s with
  | MMkdir =>
      let '(err, w) := MkdirAll (st_world s) TargetDir in
      Some (set_main (MSendErr err MSubmitLink) (set_world w s))
  | MSendErr e k =>
      match send_errors e s with
      | Some s => Some (set_main k s)
      | None => None
      end
  | MSubmitLink =>
      match send_jobs LinkAssets (add_wg 1 s) with
      | Some s => Some (set_main MGenArticles s)
      | None => None
      end
  | MGenArticles =>
      let '(articleJobs, err) := generateArticleJobs (st_world s) in
      Some (set_main (MSendErr err (MGenPages articleJobs)) s)
  | MGenPages articleJobs =>
      let '(pageJobs, err) := generatePageJobs (st_world s) in
      Some (set_main (MSendErr err (MAdd articleJobs pageJobs)) s)
  | MAdd articleJobs pageJobs =>
      Some (set_main (MFeed (articleJobs ++ pageJobs))
              (add_wg (Z.of_nat (length articleJobs + length pageJobs)) s))
  | MFeed [] => Some (set_main MWait s)
  | MFeed (job :: rest) =>
      match send_jobs job s with
      | Some s => Some (set_main (MFeed rest) s)
      | None => None
      end
  | MWait => if decide (st_wg s = 0%Z) then Some (set_main MReturned s) else None
  | MReturned => None
  end.

(** One step of worker [i]. *)
Definition worker_step (i : nat) (s : State) : option State :=
  match st_workers s !! i with
  | None => None
  | Some WRecv =>
      match st_jobs s with
      | [] => None
      | job :: rest => Some (set_worker i (WRun job) (set_jobs rest s))
      end
  | Some (WRun job) =>
      let '(r, w) := call job (st_world s) in
      Some (set_worker i (WSend r) (note_executed job (set_world w s)))
  | Some (WSend r) =>
      match send_errors r s with
      | Some s => Some (set_worker i WDone s)
      | None => None
      end
  | Some WDone => Some (set_worker i WRecv (add_wg (-1) s))
  end.

(** One step of the draining goroutine. *)
Definition drain_step (s : State) : option State :=
  match st_drain s with
  | DGot None => Some (set_drain DWait s)
  | DGot (Some _) => Some (set_drain DPanicked s)
  | DWait | DPanicked => None
  end.

(** One step of the process: the actor the scheduler picked moves. *)
Definition step (a : Actor) (s : State) : option State :=
  if over s then None
  else match a with
       | AMain => main_step s
       | AWorker i => worker_step i s
       | ADrain => drain_step s
       end.

(** The process under a schedule; an actor that cannot move is skipped. *)
Definition run (sched : list Actor) (s : State) : State :=
  fold_left (fun s a => match step a s with Some s' => s' | None => s end) sched s.

(** The states some interleaving of the goroutines reaches. *)
Definition reachable (w : World) (s : State) : Prop :=
  exists sched, run sched (init w) = s.

(** *** The invariant of the WaitGroup *)

(** The jobs [main] has counted in the WaitGroup but not yet sent. *)
Fixpoint owed (pc : MainPc) : nat :=
  match pc with
  | MSendErr _ k => owed k
  | MFeed rest => length rest
  | _ => 0
  end.

(** [main] is at a send on [errors] after which it would return at once;
    no control point of [main] is like that. *)
Fixpoint sends_then_returns (pc : MainPc) : bool :=
  match pc with
  | MSendErr _ MReturned => true
  | MSendErr _ k => sends_then_returns k
  | _ => false
  end.

(** The workers that hold a job: received, called or not, not yet
    confirmed by [wg.Done()]. *)
Fixpoint holding (ws : list Worker) : nat :=
  match ws with
  | [] => 0
  | WRecv :: ws => holding ws
  | _ :: ws => S (holding ws)
  end.

(** The jobs workers have received and not yet called. *)
Fixpoint uncalled (ws : list Worker) : list Job :=
  match ws with
  | [] => []
  | WRun job :: ws => job :: uncalled ws
  | _ :: ws => uncalled ws
  end.

Definition holds_job (k : Worker) : nat :=
  match k with WRecv => 0 | _ => 1 end.

Definition job_to_call (k : Worker) : list Job :=
  match k with WRun job => [job] | _ => [] end.

(** The counter of the WaitGroup is the number of jobs counted and not yet
    confirmed; the jobs sent are those called, those a worker is about to
    call and those waiting in the channel. *)
Definition Inv (s : State) : Prop :=
  st_wg s = Z.of_nat (owed (st_main s) + length (st_jobs s) + holding (st_workers s)) /\
  st_executed s ++ uncalled (st_workers s) ++ st_jobs s ≡ₚ st_submitted s /\
  sends_then_returns (st_main s) = false /\
  (st_main s = MReturned -> st_wg s = 0%Z).

End WithWorld.

Arguments State : clear implicits.

End legacy.


(** * [ensureSymlink] and the file system it works on

    The calls [ensureSymlink] makes ([os.Stat], [os.Readlink],
    [os.RemoveAll], [os.Symlink]) are modelled on a file system of files,
    directories and symbolic links.  A path is resolved name by name: a
    name that is missing on the way is "no such file", a file on the way is
    "not a directory", a symbolic link on the way is followed, as is one at
    the end where the call follows links, and no more than [MAXSYMLINKS]
    links are followed.

    Left out: permissions (the process is allowed every operation it
    attempts), the limits on the length of names and paths, and the
    difference a slash at the end of a path makes.  The process is taken to
    run in the root directory, from where a relative path is walked. *)
Module fs.

(** What a path names. *)
Inductive Node :=
| File
| Dir
| Symlink (target : string).

(** A file system: the entries of all directories, each under its real
    path, which is [/name1/.../namen] for the entry [namen] of the
    directory [/name1/.../namen-1].  The root directory has the real path
    [""] and is no entry; it always exists. *)
Abbreviation FS := (gmap string Node).

Inductive Errno :=
| ENOENT    (* no such file or directory *)
| ENOTDIR   (* not a directory *)
| EINVAL    (* readlink of something that is no symbolic link *)
| ELOOP     (* too many levels of symbolic links *)
| EEXIST.   (* file exists *)

(** The number of symbolic links the kernel follows in one resolution. *)
Definition MAXSYMLINKS : nat := 40.

(** The names a path is made of: what stands between its slashes. *)
Fixpoint components_from (name path : string) : list string :=
  match path with
  | EmptyString => if String.eqb name "" then [] else [name]
  | String c path =>
      if Ascii.eqb c "/"
      then (if String.eqb name "" then [] else [name]) ++ components_from "" path
      else components_from (name +:+ String c "") path
  end.

Definition components (path : string) : list string := components_from "" path.

Definition absolute (path : string) : bool := String.prefix "/" path.

(** The real path of the directory or entry reached from the root by the
    names [names]. *)
Fixpoint key_of (names : list string) : string :=
  match names with
  | [] => ""
  | name :: names => "/" +:+ name +:+ key_of names
  end.

(** What a resolution finds: the real path of an entry, and the entry. *)
Definition Found : Type := string * option Node.

Section Walk.
Variable fs : FS.
(** What is done at a symbolic link met in the directory [cur], with the
    names [rest] still to go. *)
Variable at_link : list string -> string -> list string -> Errno + Found.
(** Whether a symbolic link named by the last name is followed; a last
    name that names nothing is an error then. *)
Variable follow : bool.

(** The walk from the directory [cur] along [names]. *)
Fixpoint walk_from (cur names : list string) : Errno + Found :=
  match names with
  | [] => inr (key_of cur, Some Dir)
  | name :: rest =>
      if String.eqb name "." then walk_from cur rest
      else if String.eqb name ".." then walk_from (removelast cur) rest
      else
        let k := key_of (cur ++ [name]) in
        match fs !! k, rest with
        | Some Dir, _ => walk_from (cur ++ [name]) rest
        | Some (Symlink target), [] =>
            if follow then at_link cur target rest else inr (k, Some (Symlink target))
        | Some (Symlink target), _ => at_link cur target rest
        | Some File, [] => inr (k, Some File)
        | Some File, _ => inl ENOTDIR
        | None, [] => if follow then inl ENOENT else inr (k, None)
        | None, _ => inl ENOENT
        end
  end.

End Walk.

(** Path resolution, following at most [budget] symbolic links: a link is
    replaced by its target, which is walked from the root when it is
    absolute and from the directory of the link when it is not. *)
Fixpoint walk (follow : bool) (budget : nat) (fs : FS) (cur names : list string)
    : Errno + Found :=
  walk_from fs
    (fun cur target rest =>
       match budget with
       | O => inl ELOOP
       | S budget =>
           if String.eqb target "" then inl ENOENT
           else walk follow budget fs (if absolute target then [] else cur)
                  (components target ++ rest)
       end)
    follow cur names.

(** The step of [walk] at a symbolic link. *)
Definition at_link (follow : bool) (budget : nat) (fs : FS)
    (cur : list string) (target : string) (rest : list string) : Errno + Found :=
  match budget with
  | O => inl ELOOP
  | S budget =>
      if String.eqb target "" then inl ENOENT
      else walk follow budget fs (if absolute target then [] else cur)
             (components target ++ rest)
  end.

(** The entry [name] names, symbolic links followed. *)
Definition resolve (fs : FS) (name : string) : Errno + Found :=
  if String.eqb name "" then inl ENOENT
  else walk true MAXSYMLINKS fs [] (components name).

(** The entry [name] names, a symbolic link named by its last name not
    followed: the real path of the entry and what is there. *)
Definition locate (fs : FS) (name : string) : Errno + Found :=
  if String.eqb name "" then inl ENOENT
  else walk false MAXSYMLINKS fs [] (components name).

(** The real path of the entry [name] names, [name] itself where the way
    to it cannot be gone. *)
Definition place (fs : FS) (name : string) : string :=
  match locate fs name with
  | inr (k, _) => k
  | inl _ => name
  end.

(** [os.Stat]: follows symbolic links.  The program only looks at the
    error. *)
Definition Stat (fs : FS) (name : string) : option Errno :=
  match resolve fs name with
  | inl e => Some e
  | inr _ => None
  end.

(** [os.Lstat]: what [name] names, a symbolic link as itself. *)
Definition Lstat (fs : FS) (name : string) : Errno + Node :=
  match locate fs name with
  | inl e => inl e
  | inr (_, None) => inl ENOENT
  | inr (_, Some node) => inr node
  end.

(** [os.IsNotExist]. *)
Definition IsNotExist (err : option Errno) : bool :=
  match err with Some ENOENT => true | _ => false end.

(** [os.Readlink]: the target of the symbolic link itself. *)
Definition Readlink (fs : FS) (name : string) : Errno + string :=
  match Lstat fs name with
  | inl e => inl e
  | inr (Symlink target) => inr target
  | inr _ => inl EINVAL
  end.

(** [k] is [path] or lies below it. *)
Definition below (path k : string) : bool :=
  bool_decide (k = path) || String.prefix (path +:+ "/") k.

(** [os.RemoveAll]: removes [path] and any children it contains; a path
    that does not exist is no error. *)
Definition RemoveAll (fs : FS) (path : string) : option Errno * FS :=
  match locate fs path with
  | inl ENOENT => (None, fs)
  | inl e => (Some e, fs)
  | inr (k, _) => (None, filter (fun kv : string * Node => below k kv.1 = false) fs)
  end.

(** [os.Symlink]: creates [newname] as a symbolic link to [oldname]. *)
Definition Symlink_ (fs : FS) (oldname newname : string) : option Errno * FS :=
  if String.eqb oldname "" then (Some ENOENT, fs)
  else
    match locate fs newname with
    | inl e => (Some e, fs)
    | inr (_, Some _) => (Some EEXIST, fs)
    | inr (k, None) => (None, <[k := Symlink oldname]> fs)
    end.

(** The calls of [ensureSymlink] that change the file system. *)
Inductive Mutation :=
| DidRemoveAll (path : string)
| DidSymlink (oldname newname : string).

(** What a call of [ensureSymlink] leaves: the error it returns, the file
    system, and the mutating calls it made, in order. *)
Record Result := mkResult {
  err : option Errno;
  fs_after : FS;
  mutations : list Mutation
}.

(** The code from the label [create] on. *)
Definition create (fs : FS) (source dest : string) : Result :=
  match RemoveAll fs dest with
  | (Some e, fs) => {| err := Some e; fs_after := fs; mutations := [DidRemoveAll dest] |}
  | (None, fs) =>
      let '(e, fs) := Symlink_ fs source dest in
      {| err := e; fs_after := fs;
         mutations := [DidRemoveAll dest; DidSymlink source dest] |}
  end.

(** [ensureSymlink]. *)
Definition ensureSymlink (fs : FS) (source dest : string) : Result :=
  let err := Stat fs dest in
  if IsNotExist err then create fs source dest
  else match err with
       | Some e => {| err := Some e; fs_after := fs; mutations := [] |}
       | None =>
           match Readlink fs dest with
           | inl e => {| err := Some e; fs_after := fs; mutations := [] |}
           | inr actual =>
               if String.eqb actual source
               then {| err := None; fs_after := fs; mutations := [] |}
               else create fs source dest
           end
       end.

(** [dest] is a symbolic link whose target is [source]. *)
Definition links_to (fs : FS) (dest source : string) : Prop :=
  Lstat fs dest = inr (Symlink source).

(** The directories [names], one in the other from [cur] on, are
    directories of [fs], none of them a link to one. *)
Fixpoint real_dirs (fs : FS) (cur names : list string) : bool :=
  match names with
  | [] => true
  | name :: rest =>
      match fs !! key_of (cur ++ [name]) with
      | Some Dir => real_dirs fs (cur ++ [name]) rest
      | _ => false
      end
  end.

Definition plain_name (name : string) : bool :=
  negb (String.eqb name ".") && negb (String.eqb name "..").

(** [path] is in place: it is the real path of the entry it names.  It is
    absolute and clean, as [filepath.Abs] leaves a path, and the
    directories on the way to its last name exist and are directories, none
    of them a link to one. *)
Definition in_place (fs : FS) (path : string) : bool :=
  let names := components path in
  negb (String.eqb path "") && String.eqb (key_of names) path &&
  forallb plain_name names && real_dirs fs [] (removelast names).

End fs.


(** * Test data

    The jobs of [TestRunTasks] ([func() error { return nil }] and
    [func() error { return fmt.Errorf("error") }]) and small worlds to run
    the two commands in. *)
Module testdata.

(** The world counts the calls of jobs. *)
Definition call (job : option GoError) (w : nat) : option GoError * nat := (job, S w).

Definition succeeding : pool.Task (option GoError) := pool.NewTask None.
Definition failing : pool.Task (option GoError) := pool.NewTask (Some "error").

(** [rounds] rounds in which each of [workers] workers moves once. *)
Definition round_robin (workers rounds : nat) : list nat :=
  concat (replicate rounds (seq 0 workers)).

(** The three task lists of [TestRunTasks], and one with 10 failures. *)
Definition tasks_success := [succeeding; succeeding; succeeding].
Definition tasks_one_failure := [succeeding; succeeding; failing].
Definition tasks_eleven_failures := replicate 11 failing.
Definition tasks_ten_failures := replicate 10 failing ++ [succeeding].

(** A configuration with [conf.Concurrency = 3], as the test sets it. *)
Definition conf : build.Conf :=
  {| build.Concurrency := 3; build.GoogleAnalyticsID := "UA-1";
     build.LocalFonts := false; build.Verbose := false |}.

(** Bodies for the closures of [main]: the article [broken.md] does not
    render. *)
Definition callC (c : build.Closure) (w : nat) : option GoError * nat :=
  match c with
  | build.CompileArticle "broken.md" => (Some "template: no such file", S w)
  | _ => (None, S w)
  end.

Definition Decode (w : nat) : GoError + build.Conf := inr conf.
Definition CreateOutputDirs (w : nat) : option GoError * nat := (None, w).
Definition ReadDir (w : nat) (dir : string) : GoError + list string :=
  inr [".gitkeep"; "broken.md"; "hello.md"].
Definition ReadDir_failing (w : nat) (dir : string) : GoError + list string :=
  inl "open: no such file or directory".

(** Bodies for the jobs of the channel-based command. *)
Definition callL (job : legacy.Job) (w : nat) : option GoError * nat := (None, S w).
Definition callL_failing (job : legacy.Job) (w : nat) : option GoError * nat :=
  (Some "symlink: file exists", S w).
Definition MkdirAll (w : nat) (dir : string) : option GoError * nat := (None, w).

(** An interleaving of the channel-based command in which worker 0 runs
    the job [linkAssets] and hands its result to the draining goroutine. *)
Definition sched_link_first : list legacy.Actor :=
  [legacy.AMain; legacy.AMain; legacy.ADrain; legacy.AMain;
   legacy.AWorker 0; legacy.AWorker 0; legacy.AWorker 0; legacy.ADrain].

(** The same, going on until [main] has sent the error of
    [generateArticleJobs] and the draining goroutine has looked at it. *)
Definition sched_enumerate : list legacy.Actor :=
  sched_link_first ++ [legacy.AWorker 0; legacy.AMain; legacy.AMain; legacy.ADrain].

(** A round in which [main], two workers and the draining goroutine all
    get to move. *)
Definition fair_round : list legacy.Actor :=
  [legacy.AMain; legacy.ADrain; legacy.AWorker 0; legacy.ADrain;
   legacy.AWorker 1; legacy.ADrain].

(** What [runTasks] returns on the test lists with three workers taking
    turns. *)
Definition no_run : build.Ran nat (option GoError) :=
  {| build.ok := true; build.logged := []; build.tasks_after := []; build.world_after := 0 |}.

Definition ran_one_failure : build.Ran nat (option GoError) :=
  Eval vm_compute in
    default no_run (build.runTasks call 3 (round_robin 3 4) tasks_one_failure 0).

Definition ran_eleven_failures : build.Ran nat (option GoError) :=
  Eval vm_compute in
    default no_run (build.runTasks call 3 (round_robin 3 9) tasks_eleven_failures 0).

Definition ran_ten_failures : build.Ran nat (option GoError) :=
  Eval vm_compute in
    default no_run (build.runTasks call 3 (round_robin 3 9) tasks_ten_failures 0).

(** File systems to call [ensureSymlink] in. *)
Definition fonts_source : string := "/site/content/fonts".
Definition fonts_dest : string := "/site/public/assets/fonts".

(** The directories of a site, with nothing in them. *)
Definition fs_site_dirs : gmap string fs.Node :=
  {[ "/site" := fs.Dir; "/site/content" := fs.Dir; "/site/public" := fs.Dir;
     "/site/public/assets" := fs.Dir ]}.

(** The source exists, the destination does not. *)
Definition fs_fresh : gmap string fs.Node := <[fonts_source := fs.Dir]> fs_site_dirs.




(** The destination is a link to another directory. *)
Definition fs_dest_elsewhere : gmap string fs.Node :=
  <["/site/old" := fs.Dir]> (<[fonts_dest := fs.Symlink "/site/old"]> fs_fresh).


(** The call of [TestGetLocals], and one whose locals bring their own
    title. *)
Definition locals_foo : gmap string build.Value := {[ "Foo" := build.VString "Bar" ]}.
Definition locals_titled : gmap string build.Value :=
  {[ "Content" := build.VString "<p>hello</p>"; "Title" := build.VString "Override" ]}.

End testdata.


(** * [trimExtension] and the library functions it is made of *)
Module paths.

(** [os.IsPathSeparator], on Unix. *)
Definition IsPathSeparator (c : ascii) : bool := Ascii.eqb c "/".

(** The loop of [filepath.Ext] at index [i], going down: [upto] is
    [path[:i+1]] read backwards, so that its head is [path[i]], and [from]
    is [path[i+1:]].  The loop ends with the empty extension at a path
    separator or when it runs out of the string, and with [path[i:]] at a
    dot. *)
Fixpoint Ext_loop (upto : list ascii) (from : string) : string :=
  match upto with
  | [] => ""
  | c :: upto =>
      if IsPathSeparator c then ""
      else if Ascii.eqb c "." then String c from
      else Ext_loop upto (String c from)
  end.

(** [filepath.Ext]: the suffix beginning at the final dot in the final
    element of [path]; empty if there is no dot. *)
Definition Ext (path : string) : string :=
  Ext_loop (rev (String.list_ascii_of_string path)) "".

(** [strings.HasSuffix]:
    [len(s) >= len(suffix) && s[len(s)-len(suffix):] == suffix]. *)
Definition HasSuffix (s suffix : string) : bool :=
  (String.length suffix <=? String.length s)%nat &&
  String.eqb
    (String.substring (String.length s - String.length suffix) (String.length suffix) s)
    suffix.

(** [strings.TrimSuffix]. *)
Definition TrimSuffix (s suffix : string) : string :=
  if HasSuffix s suffix
  then String.substring 0 (String.length s - String.length suffix) s
  else s.

(** [trimExtension], the same in both versions of the command. *)
Definition trimExtension (file : string) : string :=
  TrimSuffix file (Ext file).

(** A string without dot and without path separator. *)
Definition plain (e : string) : Prop :=
  Forall (fun c => c <> "."%char /\ c <> "/"%char) (String.list_ascii_of_string e).

End paths.


(** * The link jobs of the pool-based command *)
Module links.

Section WithPaths.
(** [filepath.Abs], which depends on the working directory of the process,
    [path.Join] and [os.ReadDir] (the names of the entries, in the order of
    the listing); [singularity.ContentDir] and [singularity.TargetDir]. *)
Variable Abs : string -> fs.Errno + string.
Variable Join : list string -> string.
Variable ReadDir : gmap string fs.Node -> string -> fs.Errno + list string.
Variable ContentDir TargetDir : string.

(** [linkFonts]. *)
Definition linkFonts (fs : gmap string fs.Node) : fs.Result :=
  match Abs (Join [ContentDir; "fonts"]) with
  | inl err => {| fs.err := Some err; fs.fs_after := fs; fs.mutations := [] |}
  | inr source =>
      match Abs (Join [TargetDir; "assets"; "fonts"]) with
      | inl err => {| fs.err := Some err; fs.fs_after := fs; fs.mutations := [] |}
      | inr dest => fs.ensureSymlink fs source dest
      end
  end.

(** The loop of [linkImages] over the entries still to link; [made] are
    the changes made for the entries before them. *)
Fixpoint linkImages_loop (assets : list string) (fs : gmap string fs.Node)
    (made : list fs.Mutation) : fs.Result :=
  match assets with
  | [] => {| fs.err := None; fs.fs_after := fs; fs.mutations := made |}
  | asset :: assets =>
      match Abs (ContentDir +:+ "/images/" +:+ asset) with
      | inl err => {| fs.err := Some err; fs.fs_after := fs; fs.mutations := made |}
      | inr source =>
          match Abs (TargetDir +:+ "/assets/" +:+ asset) with
          | inl err => {| fs.err := Some err; fs.fs_after := fs; fs.mutations := made |}
          | inr dest =>
              let r := fs.ensureSymlink fs source dest in
              match fs.err r with
              | Some err =>
                  {| fs.err := Some err; fs.fs_after := fs.fs_after r;
                     fs.mutations := made ++ fs.mutations r |}
              | None =>
                  linkImages_loop assets (fs.fs_after r) (made ++ fs.mutations r)
              end
          end
      end
  end.

(** [linkImages]. *)
Definition linkImages (fs : gmap string fs.Node) : fs.Result :=
  match ReadDir fs (ContentDir +:+ "/images") with
  | inl err => {| fs.err := Some err; fs.fs_after := fs; fs.mutations := [] |}
  | inr assets => linkImages_loop assets fs []
  end.

End WithPaths.

(** [filepath.Abs] takes the names [linkImages] builds for the entry
    [name] to the entry's paths below [imagesAbs] and [assetsAbs], the
    absolute paths of the images directory and of the assets directory. *)
Definition resolves (Abs : string -> fs.Errno + string)
    (ContentDir TargetDir imagesAbs assetsAbs name : string) : Prop :=
  Abs (ContentDir +:+ "/images/" +:+ name) = inr (imagesAbs +:+ "/" +:+ name) /\
  Abs (TargetDir +:+ "/assets/" +:+ name) = inr (assetsAbs +:+ "/" +:+ name).

(** A name as a directory has them for its entries: no slash in it. *)
Definition entry_name (name : string) : Prop :=
  "/"%char ∉ String.list_ascii_of_string name.

End links.


(** * [compileArticle] and [renderView] *)
Module article.

Section WithCollaborators.
Context {World Template File : Type}.
(** The collaborators: [os.ReadFile], [markdown.Render] (with no options),
    [toc.Render], [ace.Load] (with the helper functions), [os.Create],
    [template.Execute] on the buffered writer of a file, [writer.Flush],
    [file.Close] and [path.Join]. *)
Variable ReadFile : World -> string -> GoError + string.
Variable markdown_Render : string -> string.
Variable toc_Render : string -> GoError + string.
Variable ace_Load : World -> string -> string -> GoError + Template.
Variable os_Create : World -> string -> (GoError + File) * World.
Variable Execute :
  Template -> File -> gmap string build.Value -> World -> option GoError * World.
Variable Flush : File -> World -> option GoError * World.
Variable Close : File -> World -> option GoError * World.
Variable Join : list string -> string.
(** [singularity.ContentDir], [TargetDir], [LayoutsDir], [MainLayout] and
    [Release], and the global [conf]. *)
Variable ContentDir TargetDir LayoutsDir MainLayout Release : string.
Variable conf : build.Conf.

(** [renderView].  The deferred calls run when the function returns, the
    last deferred first: [writer.Flush()], then [file.Close()]; what they
    return is dropped. *)
Definition renderView (layout view target : string)
    (locals : gmap string build.Value) (w : World) : option GoError * World :=
  match ace_Load w layout view with
  | inl err => (Some err, w)
  | inr template =>
      match os_Create w target with
      | (inl err, w) => (Some err, w)
      | (inr file, w) =>
          let '(err, w) := Execute template file locals w in
          let '(_, w) := Flush file w in
          let '(_, w) := Close file w in
          (err, w)
      end
  end.

(** [compileArticle]. *)
Definition compileArticle (articleFile : string) (w : World) : option GoError * World :=
  let name := paths.trimExtension articleFile in
  match ReadFile w (Join [ContentDir; "articles"; articleFile]) with
  | inl err => (Some err, w)
  | inr source =>
      let rendered := markdown_Render source in
      match toc_Render rendered with
      | inl err => (Some err, w)
      | inr tocContent =>
          let locals :=
            build.getLocals conf Release name
              (<["Content" := build.VString rendered]>
               (<["TOC" := build.VString tocContent]> ∅)) in
          let out := if String.eqb name "index" then name +:+ ".html" else name in
          renderView MainLayout (Join [LayoutsDir; "article"])
            (Join [TargetDir; out]) locals w
      end
  end.

End WithCollaborators.

End article.


(** * More test data *)
Module examples.

(** The destination is a directory with a file in it. *)
Definition fs_dest_is_dir : gmap string fs.Node :=
  <[testdata.fonts_dest +:+ "/a.woff" := fs.File]>
    (<[testdata.fonts_dest := fs.Dir]> testdata.fs_fresh).

(** The site is reached through a link as well: [/site/pub] is a link to
    [/site/public]. *)
Definition fs_linked_public : gmap string fs.Node :=
  <["/site/pub" := fs.Symlink "/site/public"]> testdata.fs_fresh.

(** Where the directory [/site/public] should be, there is a file. *)
Definition fs_public_is_file : gmap string fs.Node :=
  {[ "/site" := fs.Dir; "/site/content" := fs.Dir;
     testdata.fonts_source := fs.Dir; "/site/public" := fs.File ]}.

(** The link is there, and its target is reached through a link:
    [/site/content] is a link to [/site/src]. *)
Definition fs_linked_content : gmap string fs.Node :=
  {[ "/site" := fs.Dir; "/site/src" := fs.Dir; "/site/src/fonts" := fs.Dir;
     "/site/content" := fs.Symlink "src";
     "/site/public" := fs.Dir; "/site/public/assets" := fs.Dir;
     testdata.fonts_dest := fs.Symlink testdata.fonts_source ]}.

(** Listings of empty directories. *)
Definition ReadDir_empty (w : nat) (dir : string) : GoError + list string := inr [].

(** An interleaving of the channel-based command on a site without
    articles and pages, up to the point where [main] is in [wg.Wait()] and
    worker 0 has called [linkAssets] and is about to send its result. *)
Definition sched_until_wait : list legacy.Actor :=
  [legacy.AMain; legacy.AMain; legacy.ADrain; legacy.AMain;
   legacy.AMain; legacy.AMain; legacy.ADrain;
   legacy.AMain; legacy.AMain; legacy.ADrain;
   legacy.AMain; legacy.AMain;
   legacy.AWorker 0; legacy.AWorker 0].

(** A site whose images directory has a hidden entry and a picture, and
    whose paths are absolute already. *)
Definition Abs (p : string) : fs.Errno + string := inr p.
Definition Join (elems : list string) : string := String.concat "/" elems.
Definition images : list string := [".DS_Store"; "logo.png"].
Definition ReadDir_images (fs : gmap string fs.Node) (dir : string)
    : fs.Errno + list string := inr images.
Definition fs_site : gmap string fs.Node :=
  {[ "/site" := fs.Dir; "/site/content" := fs.Dir;
     "/site/content/images" := fs.Dir;
     "/site/content/images/.DS_Store" := fs.File;
     "/site/content/images/logo.png" := fs.File;
     "/site/public" := fs.Dir; "/site/public/assets" := fs.Dir ]}.

(** The same site, with a directory where the link for the picture is to
    go. *)
Definition fs_site_blocked : gmap string fs.Node :=
  <["/site/public/assets/logo.png" := fs.Dir]> fs_site.

(** Collaborators for [compileArticle]: the world is the list of the
    files written, a template is its view, a file is its path; flushing
    fails. *)
Definition ReadFile (w : list (string * string)) (p : string) : GoError + string :=
  inr "# Hello".
Definition ReadFile_failing (w : list (string * string)) (p : string) : GoError + string :=
  inl "open: no such file or directory".
Definition markdown_Render (source : string) : string := "<h1>Hello</h1>".
Definition toc_Render (html : string) : GoError + string := inr "<ol></ol>".
Definition ace_Load (w : list (string * string)) (layout view : string)
    : GoError + string := inr view.
Definition os_Create (w : list (string * string)) (target : string)
    : (GoError + string) * list (string * string) := (inr target, (target, "") :: w).
Definition Execute (template file : string) (locals : gmap string build.Value)
    (w : list (string * string)) : option GoError * list (string * string) :=
  (None, (file, template) :: w).
Definition Flush (file : string) (w : list (string * string))
    : option GoError * list (string * string) := (Some "write: no space left on device", w).
Definition Close (file : string) (w : list (string * string))
    : option GoError * list (string * string) := (None, w).

(** A site whose images directory has an entry named [fonts]. *)
Definition ReadDir_with_fonts (fs : gmap string fs.Node) (dir : string)
    : fs.Errno + list string := inr ["fonts"; "logo.png"].
Definition fs_site_with_fonts : gmap string fs.Node :=
  {[ "/site" := fs.Dir; "/site/content" := fs.Dir;
     "/site/content/fonts" := fs.Dir;
     "/site/content/images" := fs.Dir;
     "/site/content/images/fonts" := fs.Dir;
     "/site/content/images/logo.png" := fs.File;
     "/site/public" := fs.Dir; "/site/public/assets" := fs.Dir ]}.
End examples.


(** * Facts about the task pool *)
Section PoolFacts.
Context {World J : Type}.
Variable call : J -> World -> option GoError * World.

Local Abbreviation Task := (pool.Task J).
Local Abbreviation RunState := (pool.RunState World J).

Lemma tally_insert (P : pool.Worker -> bool) (ws : list pool.Worker) w x y :
  ws !! w = Some y ->
  pool.tally P (<[w := x]> ws) + (if P y then 1 else 0)
  = pool.tally P ws + (if P x then 1 else 0).
Proof.
  revert w. induction ws as [|k ws IH]; intros [|w] Hw; simplify_eq/=.
  - lia.
  - specialize (IH _ Hw). lia.
Qed.

Lemma tally_zero (P : pool.Worker -> bool) (ws : list pool.Worker) w k :
  pool.tally P ws = 0 -> ws !! w = Some k -> P k = false.
Proof.
  revert w. induction ws as [|k' ws IH]; intros [|w] Hz Hw; simplify_eq/=.
  - destruct (P k); [lia | done].
  - apply (IH w); [lia | done].
Qed.

Lemma tally_pos (P : pool.Worker -> bool) (ws : list pool.Worker) :
  0 < pool.tally P ws -> exists w k, ws !! w = Some k /\ P k = true.
Proof.
  induction ws as [|k ws IH]; simpl; [lia |].
  destruct (P k) eqn:HP.
  - intros _. by exists 0, k.
  - intros Hpos. destruct IH as (w & k' & Hw & Hk); [lia |].
    by exists (S w), k'.
Qed.

Lemma tally_replicate_idle (P : pool.Worker -> bool) n :
  P pool.Idle = false -> pool.tally P (replicate n pool.Idle) = 0.
Proof. intros HP. induction n as [|n IH]; simpl; [done |]. by rewrite HP, IH. Qed.

Lemma steps_step_l (s1 s2 s3 : RunState) :
  pool.step call s1 s2 -> pool.steps call s2 s3 -> pool.steps call s1 s3.
Proof.
  intros H12 H23. induction H23 as [s|s2 s3 s4 _ IH Hs].
  - eapply pool.steps_next; [apply pool.steps_refl | done].
  - eapply pool.steps_next; [by apply IH | done].
Qed.

Lemma Inv_start (tasks : list Task) (conc : Z) (w : World) :
  pool.Inv call tasks (Z.to_nat conc) (pool.start (pool.NewPool tasks conc) w).
Proof.
  exists 0. simpl.
  assert (Hidle : forall v k, replicate (Z.to_nat conc) pool.Idle !! v = Some k -> k = pool.Idle).
  { intros v k Hv. by apply lookup_replicate in Hv as [-> _]. }
  repeat split.
  - lia.
  - by rewrite Nat.sub_0_r.
  - by rewrite length_replicate.
  - rewrite tally_replicate_idle by done. lia.
  - intros v i Hv. by apply Hidle in Hv.
  - intros v1 v2 i Hv. by apply Hidle in Hv.
  - intros _ v Hv. by apply Hidle in Hv.
  - intros i t0 Ht0. exists t0. split; [done |]. split; [done |]. lia.
Qed.

Lemma Inv_step (tasks0 : list Task) wc (s s' : RunState) w :
  pool.Inv call tasks0 wc s -> pool.worker_step call w s = Some s' -> pool.Inv call tasks0 wc s'.
Proof.
  intros (k & Hk & Hpend & Hlen & Hwc & Hbar & Hlt & Huniq & Hnoexit & Htasks).
  unfold pool.worker_step.
  destruct (pool.rs_workers s !! w) as [[|i|]|] eqn:Hw; [| |done..].
  - (* an idle worker *)
    destruct (pool.rs_pending s) as [|i rest] eqn:Hp; intros [= <-].
    + (* nothing left: the worker terminates *)
      assert (k = length tasks0) as ->.
      { destruct (length tasks0 - k) eqn:E; [lia | done]. }
      pose proof (tally_insert pool.is_busy _ w pool.Exited _ Hw) as Ht. simpl in Ht.
      exists (length tasks0). simpl. repeat split; try done.
      * by rewrite length_insert.
      * lia.
      * intros v i Hv. apply list_lookup_insert_Some in Hv as [(_ & ? & _)|[_ Hv]]; [done | eauto].
      * intros v1 v2 i Hv1 Hv2.
        apply list_lookup_insert_Some in Hv1 as [(_ & ? & _)|[_ Hv1]]; [done |].
        apply list_lookup_insert_Some in Hv2 as [(_ & ? & _)|[_ Hv2]]; [done | eauto].
      * lia.
      * intros i t0 Ht0. destruct (Htasks i t0 Ht0) as (t & Hti & Hsame & Hran).
        exists t. split; [done |]. split.
        -- intros [Hge|[v Hv]]; [by apply Hsame; left |].
           apply list_lookup_insert_Some in Hv as [(_ & ? & _)|[_ Hv]]; [done |].
           apply Hsame. right. by exists v.
        -- intros Hi Hfree. apply Hran; [done |]. intros v Hv.
           apply (Hfree v). rewrite list_lookup_insert_ne; [done |]. congruence.
    + (* the worker pulls the next pending task *)
      destruct (length tasks0 - k) as [|m] eqn:E; [done |].
      simpl in Hpend. injection Hpend as -> ->.
      pose proof (tally_insert pool.is_busy _ w (pool.Busy k) _ Hw) as Ht. simpl in Ht.
      assert (Hwlt : w < length (pool.rs_workers s)) by (by eapply lookup_lt_Some).
      exists (S k). simpl. repeat split.
      * lia.
      * f_equal. lia.
      * done.
      * by rewrite length_insert.
      * lia.
      * intros v i Hv. apply list_lookup_insert_Some in Hv as [(_ & [= <-] & _)|[_ Hv]]; [lia |].
        apply Hlt in Hv. lia.
      * intros v1 v2 i Hv1 Hv2.
        apply list_lookup_insert_Some in Hv1 as [(<- & [= <-] & _)|[Hne1 Hv1]];
          apply list_lookup_insert_Some in Hv2 as [(<- & Hb & _)|[Hne2 Hv2]]; try done.
        -- apply Hlt in Hv2. lia.
        -- injection Hb as <-. apply Hlt in Hv1. lia.
        -- eauto.
      * intros Hlt' v Hv.
        apply list_lookup_insert_Some in Hv as [(_ & ? & _)|[_ Hv]]; [done |].
        apply (Hnoexit ltac:(lia) v Hv).
      * intros i t0 Ht0. destruct (Htasks i t0 Ht0) as (t & Hti & Hsame & Hran).
        exists t. split; [done |]. split.
        -- intros [Hge|[v Hv]]; [apply Hsame; left; lia |].
           apply list_lookup_insert_Some in Hv as [(_ & [= <-] & _)|[_ Hv]].
           ++ apply Hsame. left. lia.
           ++ apply Hsame. right. by exists v.
        -- intros Hi Hfree. destruct (decide (i = k)) as [->|Hne].
           ++ exfalso. apply (Hfree w). by rewrite list_lookup_insert_eq.
           ++ apply Hran; [lia |]. intros v Hv. apply (Hfree v).
              rewrite list_lookup_insert_ne; [done |]. congruence.
  - (* a busy worker executes its task and confirms it *)
    destruct (pool.rs_tasks s !! i) as [t|] eqn:Hi; [|done].
    destruct (call (pool.f t) (pool.rs_world s)) as [r world'] eqn:Hcall.
    intros [= <-].
    pose proof (tally_insert pool.is_busy _ w pool.Idle _ Hw) as Ht. simpl in Ht.
    assert (Hilt : i < length (pool.rs_tasks s)) by (by eapply lookup_lt_Some).
    exists k. simpl. repeat split; try done.
    + by rewrite length_insert.
    + by rewrite length_insert.
    + lia.
    + intros v j Hv. apply list_lookup_insert_Some in Hv as [(_ & ? & _)|[_ Hv]]; [done | eauto].
    + intros v1 v2 j Hv1 Hv2.
      apply list_lookup_insert_Some in Hv1 as [(_ & ? & _)|[_ Hv1]]; [done |].
      apply list_lookup_insert_Some in Hv2 as [(_ & ? & _)|[_ Hv2]]; [done | eauto].
    + intros Hlt' v Hv.
      apply list_lookup_insert_Some in Hv as [(_ & ? & _)|[_ Hv]]; [done |].
      apply (Hnoexit Hlt' v Hv).
    + intros j t0 Ht0. destruct (Htasks j t0 Ht0) as (tj & Htj & Hsame & Hran).
      destruct (decide (j = i)) as [->|Hne].
      * assert (tj = t) as -> by congruence.
        assert (t = t0) as -> by (apply Hsame; right; by exists w).
        exists (pool.record_outcome t0 r).
        split; [by rewrite list_lookup_insert_eq |]. split.
        -- intros [Hge|[v Hv]]; [apply Hlt in Hw; lia |].
           apply list_lookup_insert_Some in Hv as [(_ & ? & _)|[Hvw Hv]]; [done |].
           by pose proof (Huniq _ _ _ Hw Hv).
        -- intros _ _. repeat split. exists (pool.rs_world s). simpl. by rewrite Hcall.
      * exists tj. split; [by rewrite list_lookup_insert_ne |]. split.
        -- intros [Hge|[v Hv]]; [by apply Hsame; left |].
           apply list_lookup_insert_Some in Hv as [(_ & ? & _)|[_ Hv]]; [done |].
           apply Hsame. right. by exists v.
        -- intros Hj Hfree. apply Hran; [done |]. intros v Hv. apply (Hfree v).
           rewrite list_lookup_insert_ne; [done |]. congruence.
Qed.

Lemma Inv_steps (tasks0 : list Task) wc (s s' : RunState) :
  pool.Inv call tasks0 wc s -> pool.steps call s s' -> pool.Inv call tasks0 wc s'.
Proof.
  intros HI Hs. induction Hs as [s|s1 s2 s3 _ IH [_ [w Hw]]]; [done |].
  eapply Inv_step; [by apply IH | done].
Qed.

Lemma Inv_returned (tasks0 : list Task) wc (s : RunState) :
  pool.Inv call tasks0 wc s -> pool.returned s = true ->
  Forall2 (pool.ran_once call) tasks0 (pool.rs_tasks s).
Proof.
  intros (k & Hk & Hpend & Hlen & Hwc & Hbar & Hlt & Huniq & Hnoexit & Htasks) Hret.
  apply Nat.eqb_eq in Hret.
  apply Forall2_same_length_lookup. split; [done |].
  intros i t0 t Ht0 Ht.
  destruct (Htasks i t0 Ht0) as (t' & Ht' & _ & Hran).
  assert (t' = t) as -> by congruence.
  apply lookup_lt_Some in Ht0.
  apply Hran; [lia |]. intros v Hv.
  assert (pool.is_busy (pool.Busy i) = false); [|done].
  eapply tally_zero; [|exact Hv]. lia.
Qed.

Lemma ran_once_is_set (t0 t : Task) :
  pool.ran_once call t0 t -> pool.is_set (pool.outcome t) = true.
Proof. intros (_ & _ & w & ->). by destruct (call (pool.f t0) w).1. Qed.

Lemma Inv_at_most_once (tasks0 : list Task) wc (s : RunState) :
  pool.Inv call tasks0 wc s ->
  Forall2 (fun t0 t => pool.runs t <= S (pool.runs t0)) tasks0 (pool.rs_tasks s).
Proof.
  intros (k & Hk & Hpend & Hlen & Hwc & Hbar & Hlt & Huniq & Hnoexit & Htasks).
  apply Forall2_same_length_lookup. split; [done |].
  intros i t0 t Ht0 Ht.
  destruct (Htasks i t0 Ht0) as (t' & Ht' & Hsame & Hran).
  assert (t' = t) as -> by congruence.
  destruct (decide (k <= i)) as [Hge|Hlt'].
  { rewrite Hsame; [lia | by left]. }
  destruct (decide (pool.Busy i ∈ pool.rs_workers s)) as [Hin|Hnin].
  - apply list_elem_of_lookup in Hin as [w Hw].
    rewrite Hsame; [lia | right; by exists w].
  - destruct Hran as (_ & -> & _); [lia | | lia].
    intros w Hw. apply Hnin. apply list_elem_of_lookup. by exists w.
Qed.

Lemma Inv_progress (tasks0 : list Task) wc (s : RunState) :
  pool.Inv call tasks0 wc s -> 1 <= wc -> pool.returned s = false ->
  exists w s', pool.worker_step call w s = Some s'.
Proof.
  intros (k & Hk & Hpend & Hlen & Hwc & Hbar & Hlt & Huniq & Hnoexit & Htasks) Hpos Hret.
  apply Nat.eqb_neq in Hret.
  assert (Hbusy : forall w i, pool.rs_workers s !! w = Some (pool.Busy i) ->
                  exists s', pool.worker_step call w s = Some s').
  { intros w i Hw. unfold pool.worker_step. rewrite Hw.
    destruct (pool.rs_tasks s !! i) as [t|] eqn:Hi.
    - destruct (call (pool.f t) (pool.rs_world s)). eauto.
    - apply lookup_ge_None in Hi. apply Hlt in Hw. lia. }
  destruct (decide (0 < pool.tally pool.is_busy (pool.rs_workers s))) as [Hb|Hnb].
  - apply tally_pos in Hb as (w & [|i|] & Hw & Hk'); try done.
    exists w. by eapply Hbusy.
  - assert (Hkn : k < length tasks0) by lia.
    destruct (pool.rs_workers s !! 0) as [[|i|]|] eqn:Hw.
    + exists 0. unfold pool.worker_step. rewrite Hw. destruct (pool.rs_pending s); eauto.
    + exists 0. by eapply Hbusy.
    + by apply Hnoexit in Hw.
    + apply lookup_ge_None in Hw. lia.
Qed.

Lemma measure_step (s s' : RunState) w :
  pool.worker_step call w s = Some s' -> pool.measure s' + 1 = pool.measure s.
Proof.
  unfold pool.worker_step, pool.measure.
  destruct (pool.rs_workers s !! w) as [[|i|]|] eqn:Hw; [| |done..].
  - destruct (pool.rs_pending s) as [|i rest] eqn:Hp; intros [= <-]; simpl.
    + pose proof (tally_insert pool.is_busy _ w pool.Exited _ Hw) as H1.
      pose proof (tally_insert (fun k => negb (pool.is_exited k)) _ w pool.Exited _ Hw) as H2.
      simpl in *. lia.
    + pose proof (tally_insert pool.is_busy _ w (pool.Busy i) _ Hw) as H1.
      pose proof (tally_insert (fun k => negb (pool.is_exited k)) _ w (pool.Busy i) _ Hw) as H2.
      simpl in *. lia.
  - destruct (pool.rs_tasks s !! i) as [t|]; [|done].
    destruct (call (pool.f t) (pool.rs_world s)). intros [= <-]; simpl.
    pose proof (tally_insert pool.is_busy _ w pool.Idle _ Hw) as H1.
    pose proof (tally_insert (fun k => negb (pool.is_exited k)) _ w pool.Idle _ Hw) as H2.
    simpl in *. lia.
Qed.

(** A run under a schedule is one of the interleavings, and ends in a
    state in which [Run] returns. *)
Lemma Run_from_steps sched (s s' : RunState) :
  pool.Run_from call sched s = Some s' ->
  pool.steps call s s' /\ pool.returned s' = true.
Proof.
  revert s. induction sched as [|w sched IH]; intros s; simpl.
  - destruct (pool.returned s) eqn:Hr; [|done]. intros [= <-].
    split; [apply pool.steps_refl | done].
  - destruct (pool.returned s) eqn:Hr.
    + intros [= <-]. split; [apply pool.steps_refl | done].
    + destruct (pool.worker_step call w s) as [s1|] eqn:Hw; intros Hrun.
      * destruct (IH _ Hrun) as [Hs Hret]. split; [|done].
        eapply steps_step_l; [|exact Hs]. split; [done | by exists w].
      * by apply IH.
Qed.

(** From a state of a run with at least one worker, some schedule lets
    [Run] return. *)
Lemma Run_from_completes (tasks0 : list Task) wc m (s : RunState) :
  pool.Inv call tasks0 wc s -> 1 <= wc -> pool.measure s <= m ->
  exists sched, is_Some (pool.Run_from call sched s).
Proof.
  revert s. induction m as [|m IH]; intros s HI Hwc Hm.
  - destruct (pool.returned s) eqn:Hr.
    + exists []. simpl. rewrite Hr. eauto.
    + destruct (Inv_progress _ _ _ HI Hwc Hr) as (w & s' & Hw).
      apply measure_step in Hw. lia.
  - destruct (pool.returned s) eqn:Hr.
    + exists []. simpl. rewrite Hr. eauto.
    + destruct (Inv_progress _ _ _ HI Hwc Hr) as (w & s' & Hw).
      destruct (IH s') as [sched Hs].
      * by eapply Inv_step.
      * done.
      * apply measure_step in Hw. lia.
      * exists (w :: sched). simpl. by rewrite Hr, Hw.
Qed.

(** However the workers have been scheduled so far, the schedule can be
    continued so that [Run] returns. *)
Lemma Run_from_extends (tasks0 : list Task) wc sched (s : RunState) :
  pool.Inv call tasks0 wc s -> 1 <= wc ->
  exists more, is_Some (pool.Run_from call (sched ++ more) s).
Proof.
  revert s. induction sched as [|w sched IH]; intros s HI Hwc.
  - simpl. by eapply Run_from_completes.
  - destruct (pool.returned s) eqn:Hr.
    + exists []. simpl. rewrite Hr. eauto.
    + destruct (pool.worker_step call w s) as [s1|] eqn:Hw.
      * destruct (IH s1) as [more Hm]; [by eapply Inv_step | done |].
        exists more. simpl. by rewrite Hr, Hw.
      * destruct (IH s) as [more Hm]; [done..|].
        exists more. simpl. by rewrite Hr, Hw.
Qed.

Lemma Forall2_ran_once_is_set (tasks0 tasks1 : list Task) :
  Forall2 (pool.ran_once call) tasks0 tasks1 ->
  Forall (fun t => pool.is_set (pool.outcome t) = true) tasks1.
Proof.
  induction 1 as [|t0 t ts0 ts Hran _ IH]; constructor; [|done].
  by eapply ran_once_is_set.
Qed.

(** C3 (pool modelled from the spec).  With at least one worker, whatever
    the list of submitted tasks and whatever the interleaving of the workers:
    (1) in any state in which [Run] returns, every task has been executed
    exactly once and has its outcome set; (2) at no moment of the run has a
    job been executed more than once; (3) as long as [Run] has not returned
    some worker can move, and every move uses up one unit of [measure], so
    that no run goes on for ever; (4) every schedule can be continued to one
    under which [Run] returns. *)
Theorem Run_executes_every_task_exactly_once
    (tasks : list Task) (conc : Z) (w : World) :
  (1 <= conc)%Z ->
  let p := pool.NewPool tasks conc in
  (forall s, pool.steps call (pool.start p w) s -> pool.returned s = true ->
     Forall2 (pool.ran_once call) tasks (pool.rs_tasks s) /\
     Forall (fun t => pool.is_set (pool.outcome t) = true) (pool.rs_tasks s)) /\
  (forall s, pool.steps call (pool.start p w) s ->
     Forall2 (fun t0 t => pool.runs t <= S (pool.runs t0)) tasks (pool.rs_tasks s)) /\
  (forall s, pool.steps call (pool.start p w) s ->
     (pool.returned s = false -> exists s', pool.step call s s') /\
     (forall s', pool.step call s s' -> pool.measure s' + 1 = pool.measure s)) /\
  (forall sched, exists more p' w',
     pool.Run call (sched ++ more) p w = Some (p', w') /\
     Forall2 (pool.ran_once call) tasks (pool.Tasks p')).
Proof.
  intros Hconc p.
  assert (HI : forall s, pool.steps call (pool.start p w) s ->
                         pool.Inv call tasks (Z.to_nat conc) s).
  { intros s Hs. eapply Inv_steps; [apply Inv_start | exact Hs]. }
  split; [|split; [|split]].
  - intros s Hs Hret.
    assert (Forall2 (pool.ran_once call) tasks (pool.rs_tasks s)) as Hran.
    { by eapply Inv_returned; [apply HI |]. }
    split; [done | by eapply Forall2_ran_once_is_set].
  - intros s Hs. by eapply Inv_at_most_once, HI.
  - intros s Hs. split.
    + intros Hret.
      destruct (Inv_progress _ _ _ (HI s Hs) ltac:(lia) Hret) as (v & s' & Hv).
      exists s'. split; [done | by exists v].
    + intros s' [_ [v Hv]]. by eapply measure_step.
  - intros sched.
    destruct (Run_from_extends tasks (Z.to_nat conc) sched (pool.start p w))
      as [more [s Hs]]; [apply Inv_start | lia |].
    exists more. unfold pool.Run. rewrite Hs. eexists _, _. split; [done |].
    simpl. apply Run_from_steps in Hs as [Hsteps Hret].
    by eapply Inv_returned; [apply HI |].
Qed.

End PoolFacts.

Lemma Run_executes_every_task_exactly_once_witness :
  (1 <= 3)%Z /\
  exists more p' w',
    pool.Run testdata.call ([0; 0; 1] ++ more)
      (pool.NewPool testdata.tasks_one_failure 3) 0 = Some (p', w') /\
    Forall2 (pool.ran_once testdata.call) testdata.tasks_one_failure (pool.Tasks p').
Proof.
  split; [lia |].
  exact (proj2 (proj2 (proj2 (Run_executes_every_task_exactly_once testdata.call
    testdata.tasks_one_failure 3 0 ltac:(lia)))) [0; 0; 1]).
Defined.


(** * Facts about [runTasks] and [main] *)
Section ReportFacts.
Context {J : Type}.

Local Abbreviation Task := (pool.Task J).

Lemma failures_cons (t : Task) (ts : list Task) :
  build.failures (t :: ts)
  = match pool.Err t with Some e => e :: build.failures ts | None => build.failures ts end.
Proof. reflexivity. Qed.

(** The loop with [k] failures still allowed before the marker. *)
Lemma report_budget (ts : list Task) (k : nat) :
  1 <= k <= 10 ->
  build.report ts (10 - Z.of_nat k)
  = if decide (k <= length (build.failures ts))
    then (LogErrorErr <$> take k (build.failures ts)) ++ [TooManyErrors]
    else LogErrorErr <$> build.failures ts.
Proof.
  revert k. induction ts as [|t ts IH]; intros k Hk.
  - simpl. case_decide; [simpl in *; lia | done].
  - cbn [build.report]. rewrite failures_cons.
    destruct (pool.Err t) as [e|].
    + destruct (10 <=? 10 - Z.of_nat k + 1)%Z eqn:Hten.
      * apply Z.leb_le in Hten. assert (k = 1) as -> by lia.
        reflexivity.
      * apply Z.leb_gt in Hten. destruct k as [|k]; [lia |].
        replace (10 - Z.of_nat (S k) + 1)%Z with (10 - Z.of_nat k)%Z by lia.
        rewrite IH by lia. simpl.
        repeat case_decide; try lia; done.
    + destruct (10 <=? 10 - Z.of_nat k)%Z eqn:Hten; [apply Z.leb_le in Hten; lia |].
      simpl. by rewrite IH.
Qed.

Lemma report_from_zero (ts : list Task) :
  build.report ts 0
  = if decide (10 <= length (build.failures ts))
    then (LogErrorErr <$> take 10 (build.failures ts)) ++ [TooManyErrors]
    else LogErrorErr <$> build.failures ts.
Proof. apply (report_budget ts 10). lia. Qed.

Lemma HasErrors_failures (p : pool.Pool J) :
  pool.HasErrors p = negb (bool_decide (build.failures (pool.Tasks p) = [])).
Proof.
  unfold pool.HasErrors. induction (pool.Tasks p) as [|t ts IH]; [done |].
  cbn [existsb]. rewrite failures_cons, IH. unfold pool.Err.
  by destruct (pool.outcome t).
Qed.

End ReportFacts.

Lemma failure_lines_count (l : list GoError) :
  length (List.filter is_failure_line ((LogErrorErr <$> l) ++ [TooManyErrors])) = length l.
Proof. induction l as [|e l IH]; [done |]. simpl. f_equal. exact IH. Qed.


Section RunTasksFacts.
Context {World J : Type}.
Variable call : J -> World -> option GoError * World.

Local Abbreviation Task := (pool.Task J).

Lemma failures_nil_iff (ts : list Task) :
  build.failures ts = [] <-> Forall (fun t => pool.Err t = None) ts.
Proof.
  induction ts as [|t ts IH]; [done |].
  rewrite failures_cons, Forall_cons. destruct (pool.Err t) as [e|].
  - split; [done | by intros [? _]].
  - rewrite IH. split; [by split | by intros [_ ?]].
Qed.

(** What [runTasks] returns, in terms of the tasks the pool hands back. *)
Lemma runTasks_Some conc sched (tasks : list Task) (w : World) r :
  build.runTasks call conc sched tasks w = Some r ->
  Forall2 (pool.ran_once call) tasks (build.tasks_after r) /\
  build.ok r = negb (pool.HasErrors (pool.NewPool (build.tasks_after r) conc)) /\
  build.ok r = bool_decide (build.failures (build.tasks_after r) = []) /\
  build.logged r = build.report (build.tasks_after r) 0.
Proof.
  unfold build.runTasks, pool.Run.
  destruct (pool.Run_from call sched _) as [s|] eqn:Hrun; [|done].
  intros [= <-]. cbn [build.ok build.logged build.tasks_after pool.Tasks].
  apply Run_from_steps in Hrun as [Hsteps Hret].
  split; [|split; [done | split; [|done]]].
  - eapply Inv_returned; [|done]. eapply Inv_steps; [apply Inv_start | done].
  - rewrite HasErrors_failures. by rewrite negb_involutive.
Qed.

(** With at least one worker, [runTasks] returns: any schedule can be
    continued to one under which the pool's [Run] comes back. *)
Lemma runTasks_returns conc sched (tasks : list Task) (w : World) :
  (1 <= conc)%Z ->
  exists more, is_Some (build.runTasks call conc (sched ++ more) tasks w).
Proof.
  intros Hconc.
  destruct (Run_from_extends call tasks (Z.to_nat conc) sched
              (pool.start (pool.NewPool tasks conc) w)) as [more [s Hs]];
    [apply Inv_start | lia |].
  exists more. unfold build.runTasks, pool.Run. rewrite Hs. eauto.
Qed.

(** C2.  When exactly 11 tasks have failed, [runTasks] logs the first 10
    failures, one line each, then a single "Too many errors." line and
    nothing more, and returns false.  With at least one worker it does
    return. *)
Theorem runTasks_eleven_failures conc sched (tasks : list Task) (w : World) r :
  build.runTasks call conc sched tasks w = Some r ->
  length (build.failures (build.tasks_after r)) = 11 ->
  build.logged r
    = (LogErrorErr <$> take 10 (build.failures (build.tasks_after r))) ++ [TooManyErrors] /\
  length (take 10 (build.failures (build.tasks_after r))) = 10 /\
  length (List.filter is_failure_line (build.logged r)) = 10 /\
  build.ok r = false /\
  ((1 <= conc)%Z ->
   forall sched0, exists more, is_Some (build.runTasks call conc (sched0 ++ more) tasks w)).
Proof.
  intros Hrun Hlen. destruct (runTasks_Some _ _ _ _ _ Hrun) as (_ & _ & Hok & Hlog).
  assert (Hlogged : build.logged r
    = (LogErrorErr <$> take 10 (build.failures (build.tasks_after r))) ++ [TooManyErrors]).
  { rewrite Hlog, report_from_zero. case_decide; [done | lia]. }
  assert (Htake : length (take 10 (build.failures (build.tasks_after r))) = 10).
  { rewrite length_take. lia. }
  repeat split; try done.
  - by rewrite Hlogged, failure_lines_count.
  - rewrite Hok. apply bool_decide_eq_false. intros Hnil. rewrite Hnil in Hlen. done.
  - intros Hconc sched0. by apply runTasks_returns.
Qed.

(** C9.  When exactly 10 tasks have failed, [runTasks] logs the 10
    failures and then the "Too many errors." line as well, although no
    failure is left unreported. *)
Theorem runTasks_ten_failures conc sched (tasks : list Task) (w : World) r :
  build.runTasks call conc sched tasks w = Some r ->
  length (build.failures (build.tasks_after r)) = 10 ->
  build.logged r
    = (LogErrorErr <$> build.failures (build.tasks_after r)) ++ [TooManyErrors] /\
  length (List.filter is_failure_line (build.logged r)) = 10 /\
  ((1 <= conc)%Z ->
   forall sched0, exists more, is_Some (build.runTasks call conc (sched0 ++ more) tasks w)).
Proof.
  intros Hrun Hlen. destruct (runTasks_Some _ _ _ _ _ Hrun) as (_ & _ & Hok & Hlog).
  assert (Hlogged : build.logged r
    = (LogErrorErr <$> build.failures (build.tasks_after r)) ++ [TooManyErrors]).
  { rewrite Hlog, report_from_zero. case_decide; [|lia].
    rewrite firstn_all2; [done | lia]. }
  repeat split; try done.
  - by rewrite Hlogged, failure_lines_count.
  - intros Hconc sched0. by apply runTasks_returns.
Qed.

End RunTasksFacts.

Lemma runTasks_eleven_failures_witness :
  build.runTasks testdata.call 3 (testdata.round_robin 3 9)
    testdata.tasks_eleven_failures 0 = Some testdata.ran_eleven_failures /\
  length (build.failures (build.tasks_after testdata.ran_eleven_failures)) = 11 /\
  build.logged testdata.ran_eleven_failures
  = (LogErrorErr <$> take 10 (build.failures (build.tasks_after testdata.ran_eleven_failures)))
    ++ [TooManyErrors].
Proof.
  split; [reflexivity |]. split; [reflexivity |].
  exact (proj1 (runTasks_eleven_failures testdata.call 3 (testdata.round_robin 3 9)
    testdata.tasks_eleven_failures 0 testdata.ran_eleven_failures eq_refl eq_refl)).
Defined.

Lemma runTasks_ten_failures_witness :
  build.runTasks testdata.call 3 (testdata.round_robin 3 9)
    testdata.tasks_ten_failures 0 = Some testdata.ran_ten_failures /\
  length (build.failures (build.tasks_after testdata.ran_ten_failures)) = 10 /\
  build.logged testdata.ran_ten_failures
  = (LogErrorErr <$> build.failures (build.tasks_after testdata.ran_ten_failures))
    ++ [TooManyErrors].
Proof.
  split; [reflexivity |]. split; [reflexivity |].
  exact (proj1 (runTasks_ten_failures testdata.call 3 (testdata.round_robin 3 9)
    testdata.tasks_ten_failures 0 testdata.ran_ten_failures eq_refl eq_refl)).
Defined.


Lemma isHidden_leading_dot (name : string) :
  build.isHidden name = true <-> exists rest, name = String "."%char rest.
Proof.
  unfold build.isHidden. destruct name as [|c rest].
  - simpl. split; [done | by intros [? ?]].
  - change (String.prefix "." (String c rest))
      with (if Ascii.ascii_dec "."%char c then String.prefix "" rest else false).
    destruct (Ascii.ascii_dec "."%char c) as [<-|Hne].
    + split; [intros _; by exists rest | by destruct rest].
    + split; [done | intros [? [= ? ?]]; congruence].
Qed.

Lemma article_loop (files : list string) (acc : list (pool.Task build.Closure)) :
  fold_left
    (fun tasks name =>
       if build.isHidden name then tasks
       else tasks ++ [pool.NewTask (build.CompileArticle name)])
    files acc
  = acc ++ map (fun name => pool.NewTask (build.CompileArticle name))
             (List.filter (fun name => negb (build.isHidden name)) files).
Proof.
  revert acc. induction files as [|name files IH]; intros acc; simpl.
  - by rewrite app_nil_r.
  - rewrite IH. destruct (build.isHidden name); simpl; [done |].
    by rewrite <- app_assoc.
Qed.

Section MainFacts.
Context {World : Type}.
Variable call : build.Closure -> World -> option GoError * World.
Variable Decode : World -> GoError + build.Conf.
Variable CreateOutputDirs : World -> option GoError * World.
Variable ReadDir : World -> string -> GoError + list string.
Variable articlesPath : string.

Local Abbreviation main := (build.main call Decode CreateOutputDirs ReadDir articlesPath).
Local Abbreviation tasksForArticles := (build.tasksForArticles ReadDir articlesPath).

(** The tasks [main] hands to [runTasks] when the listing of the articles
    is [files]. *)
Lemma tasksForArticles_listing (w : World) (files : list string) :
  ReadDir w articlesPath = inr files ->
  tasksForArticles w
  = inr (map (fun name => pool.NewTask (build.CompileArticle name))
           (List.filter (fun name => negb (build.isHidden name)) files)).
Proof. intros HR. unfold build.tasksForArticles. by rewrite HR, article_loop. Qed.

(** How [main] ends once [runTasks] has been reached. *)
Lemma main_ran sched (w : World) res r :
  main sched w = Some res -> build.ran res = Some r ->
  build.exit res = (if build.ok r then build.Return else build.OsExit 1) /\
  exists conc tasks w1,
    build.runTasks call conc sched tasks w1 = Some r.
Proof.
  unfold build.main.
  destruct (Decode w) as [e|conf]; [by intros [= <-] |].
  destruct (CreateOutputDirs w) as [[e|] w1]; [by intros [= <-] |].
  destruct (build.tasksForArticles _ _ w1) as [e|articleTasks]; [by intros [= <-] |].
  destruct (build.runTasks _ _ _ _ _) as [r'|] eqn:Hrun; [|done].
  intros [= <-] [= <-]. simpl. split; [done |]. eauto.
Qed.

(** When [runTasks] was not reached, [main] ended in [log.Fatal]. *)
Lemma main_not_ran sched (w : World) res :
  main sched w = Some res -> build.ran res = None ->
  exists e, build.exit res = build.Fatal e.
Proof.
  unfold build.main.
  destruct (Decode w) as [e|conf]; [intros [= <-]; eauto |].
  destruct (CreateOutputDirs w) as [[e|] w1]; [intros [= <-]; eauto |].
  destruct (build.tasksForArticles _ _ w1) as [e|articleTasks]; [intros [= <-]; eauto |].
  destruct (build.runTasks _ _ _ _ _) as [r'|] eqn:Hrun; [|done].
  by intros [= <-].
Qed.

(** With at least one worker configured, [main] exits: any schedule can
    be continued to one under which it does. *)
Lemma main_returns sched (w : World) :
  (forall conf, Decode w = inr conf -> (1 <= build.Concurrency conf)%Z) ->
  exists more, is_Some (main (sched ++ more) w).
Proof.
  intros Hconc. unfold build.main.
  destruct (Decode w) as [e|conf] eqn:HD; [exists []; eauto |].
  destruct (CreateOutputDirs w) as [[e|] w1]; [exists []; eauto |].
  destruct (build.tasksForArticles _ _ w1) as [e|articleTasks]; [exists []; eauto |].
  match goal with
  | |- context [build.runTasks ?c ?n _ ?ts ?w0] =>
      destruct (runTasks_returns c n sched ts w0 (Hconc conf eq_refl)) as [more [r Hr]]
  end.
  exists more. rewrite Hr. eauto.
Qed.

End MainFacts.


Lemma not_failed_iff_Err {J : Type} (t : pool.Task J) :
  pool.is_failed (pool.outcome t) = false <-> pool.Err t = None.
Proof. unfold pool.Err. by destruct (pool.outcome t). Qed.

Lemma failures_nil_iff_none_failed {J : Type} (ts : list (pool.Task J)) :
  build.failures ts = [] <->
  Forall (fun t => pool.is_failed (pool.outcome t) = false) ts.
Proof.
  rewrite failures_nil_iff. apply Forall_iff. intros t.
  symmetry. apply not_failed_iff_Err.
Qed.

(** C1 (pool modelled from the spec).  When [runTasks] returns, the pool
    has run every task once, and the result is true if and only if no task
    has a failed outcome: with no failure [HasErrors()] is false and the
    result is true, with a failure [HasErrors()] is true and the result is
    false.  [main] returns normally (status 0) on true and calls
    [os.Exit(1)] on false.  With at least one worker [runTasks] does
    return (last part). *)
Theorem runTasks_true_iff_no_task_failed {World J : Type}
    (call : J -> World -> option GoError * World)
    conc sched (tasks : list (pool.Task J)) (w : World) r :
  build.runTasks call conc sched tasks w = Some r ->
  let p := pool.NewPool (build.tasks_after r) conc in
  let none_failed :=
    Forall (fun t => pool.is_failed (pool.outcome t) = false) (build.tasks_after r) in
  Forall2 (pool.ran_once call) tasks (build.tasks_after r) /\
  (build.ok r = true <-> none_failed) /\
  (none_failed -> pool.HasErrors p = false /\ build.ok r = true) /\
  (~ none_failed -> pool.HasErrors p = true /\ build.ok r = false) /\
  (forall callC Decode CreateOutputDirs ReadDir articlesPath schedM (wM : World) res rM,
     build.main callC Decode CreateOutputDirs ReadDir articlesPath schedM wM = Some res ->
     build.ran res = Some rM ->
     (build.ok rM = true <->
      Forall (fun t => pool.is_failed (pool.outcome t) = false) (build.tasks_after rM)) /\
     build.exit res = (if build.ok rM then build.Return else build.OsExit 1) /\
     build.exit_status (build.exit res) = (if build.ok rM then 0 else 1)%Z) /\
  ((1 <= conc)%Z ->
   forall sched0, exists more, is_Some (build.runTasks call conc (sched0 ++ more) tasks w)).
Proof.
  intros Hrun p none_failed.
  assert (Hverdict : forall (J' : Type) (call' : J' -> World -> option GoError * World)
            conc' sched' tasks' w' r',
            build.runTasks call' conc' sched' tasks' w' = Some r' ->
            build.ok r' = true <->
            Forall (fun t => pool.is_failed (pool.outcome t) = false) (build.tasks_after r')).
  { intros J' call' conc' sched' tasks' w' r' Hrun'.
    destruct (runTasks_Some _ _ _ _ _ _ Hrun') as (_ & _ & Hok & _).
    rewrite Hok, bool_decide_eq_true. apply failures_nil_iff_none_failed. }
  destruct (runTasks_Some _ _ _ _ _ _ Hrun) as (Hran & Hhas & Hok & _).
  pose proof (Hverdict _ _ _ _ _ _ _ Hrun) as Hiff.
  split; [done |]. split; [done |]. split; [|split; [|split]].
  - intros Hnone. apply Hiff in Hnone. split; [|done].
    fold p in Hhas. rewrite Hnone in Hhas. by destruct (pool.HasErrors p).
  - intros Hsome. assert (build.ok r = false) as Hfalse.
    { destruct (build.ok r); [|done]. exfalso. by apply Hsome, Hiff. }
    split; [|done]. fold p in Hhas. rewrite Hfalse in Hhas. by destruct (pool.HasErrors p).
  - intros callC Decode CreateOutputDirs ReadDir articlesPath schedM wM res rM Hmain HrM.
    destruct (main_ran _ _ _ _ _ _ _ _ _ Hmain HrM) as (Hexit & conc' & tasks' & w1 & Hrun').
    split; [by eapply Hverdict |]. split; [done |].
    rewrite Hexit. by destruct (build.ok rM).
  - intros Hconc sched0. by apply runTasks_returns.
Qed.

Lemma runTasks_true_iff_no_task_failed_witness :
  build.runTasks testdata.call 3 (testdata.round_robin 3 4)
    testdata.tasks_one_failure 0 = Some testdata.ran_one_failure /\
  (build.ok testdata.ran_one_failure = true <->
   Forall (fun t => pool.is_failed (pool.outcome t) = false)
     (build.tasks_after testdata.ran_one_failure)).
Proof.
  split; [reflexivity |].
  exact (proj1 (proj2 (runTasks_true_iff_no_task_failed testdata.call 3
    (testdata.round_robin 3 4) testdata.tasks_one_failure 0
    testdata.ran_one_failure eq_refl))).
Defined.


(** * Facts about the channel-based command *)
Section LegacyFacts.
Context {World : Type}.
Variable call : legacy.Job -> World -> option GoError * World.
Variable MkdirAll : World -> string -> option GoError * World.
Variable ReadDir : World -> string -> GoError + list string.

Local Abbreviation State := (legacy.State World).
Local Abbreviation step := (legacy.step call MkdirAll ReadDir).
Local Abbreviation run := (legacy.run call MkdirAll ReadDir).

Lemma holding_insert (ws : list legacy.Worker) i x y :
  ws !! i = Some y ->
  legacy.holding (<[i := x]> ws) + legacy.holds_job y = legacy.holding ws + legacy.holds_job x.
Proof.
  revert i. induction ws as [|k ws IH]; intros [|i] Hi; simplify_eq/=.
  - destruct x, y; simpl; lia.
  - specialize (IH _ Hi). destruct k; simpl; lia.
Qed.

Lemma uncalled_insert (ws : list legacy.Worker) i x y :
  ws !! i = Some y ->
  legacy.uncalled (<[i := x]> ws) ++ legacy.job_to_call y
  ≡ₚ legacy.uncalled ws ++ legacy.job_to_call x.
Proof.
  revert i. induction ws as [|k ws IH]; intros [|i] Hi; simplify_eq/=.
  - destruct x, y; simpl; rewrite ?app_nil_r, <- ?Permutation_cons_append;
      try done; apply perm_swap.
  - specialize (IH _ Hi). destruct k; simpl; by rewrite ?IH.
Qed.

Lemma wg_Inv_init (w : World) : legacy.Inv (legacy.init w).
Proof.
  assert (Hh : forall n, legacy.holding (replicate n legacy.WRecv) = 0).
  { induction n; simpl; done. }
  assert (Hu : forall n, legacy.uncalled (replicate n legacy.WRecv) = []).
  { induction n; simpl; done. }
  repeat split; simpl; rewrite ?Hh, ?Hu; done.
Qed.

Lemma wg_Inv_step (a : legacy.Actor) (s s' : State) :
  legacy.Inv s -> step a s = Some s' -> legacy.Inv s'.
Proof.
  intros (Hwg & Hperm & Hsend & Hret). unfold legacy.step.
  destruct (legacy.over s) eqn:Hover; [done |].
  assert (Hmain : legacy.st_main s <> legacy.MReturned).
  { intros Hm. unfold legacy.over in Hover. by rewrite Hm in Hover. }
  destruct a as [|i|].
  - (* main *)
    unfold legacy.main_step.
    destruct (legacy.st_main s) as [|e k| | |ajs|ajs pjs|[|job rest]| |] eqn:Hpc;
      simpl in Hwg.
    + destruct (MkdirAll _ _) as [err w]. intros [= <-]. by repeat split.
    + unfold legacy.send_errors. destruct (legacy.st_drain s); try done.
      intros [= <-]. repeat split; simpl; try done.
      * by destruct k.
      * intros ->. done.
    + unfold legacy.send_jobs. simpl. case_decide; [|done]. intros [= <-].
      repeat split; simpl; try done.
      * rewrite Hwg, length_app. simpl. lia.
      * rewrite <- Hperm. by rewrite <- !app_assoc.
    + destruct (legacy.generateArticleJobs _ _) as [ajs err]. intros [= <-].
      by repeat split.
    + destruct (legacy.generatePageJobs _ _) as [pjs err]. intros [= <-].
      by repeat split.
    + intros [= <-]. repeat split; simpl; try done. rewrite Hwg, length_app. lia.
    + intros [= <-]. by repeat split.
    + unfold legacy.send_jobs. case_decide; [|done]. intros [= <-].
      repeat split; simpl; try done.
      * rewrite Hwg, length_app. simpl. lia.
      * rewrite <- Hperm. by rewrite <- !app_assoc.
    + case_decide; [|done]. intros [= <-]. by repeat split.
    + done.
  - (* a worker *)
    unfold legacy.worker_step.
    destruct (legacy.st_workers s !! i) as [[|job|r|]|] eqn:Hi; [| | | |done].
    + destruct (legacy.st_jobs s) as [|job rest] eqn:Hjobs; [done |].
      intros [= <-]. repeat split; simpl; try done.
      * pose proof (holding_insert _ i (legacy.WRun job) _ Hi) as Hh. simpl in *. lia.
      * pose proof (uncalled_insert _ i (legacy.WRun job) _ Hi) as Hu. simpl in Hu.
        rewrite app_nil_r in Hu. rewrite Hu, <- Hperm.
        by rewrite <- !app_assoc.
    + destruct (call job (legacy.st_world s)) as [r w]. intros [= <-].
      repeat split; simpl; try done.
      * pose proof (holding_insert _ i (legacy.WSend r) _ Hi) as Hh. simpl in *. lia.
      * pose proof (uncalled_insert _ i (legacy.WSend r) _ Hi) as Hu. simpl in Hu.
        rewrite app_nil_r in Hu. rewrite <- Hperm, <- Hu.
        rewrite <- !app_assoc. apply Permutation_app_head. simpl.
        apply Permutation_middle.
    + unfold legacy.send_errors. destruct (legacy.st_drain s); try done.
      intros [= <-]. repeat split; simpl; try done.
      * pose proof (holding_insert _ i legacy.WDone _ Hi) as Hh. simpl in *. lia.
      * pose proof (uncalled_insert _ i legacy.WDone _ Hi) as Hu. simpl in Hu.
        rewrite !app_nil_r in Hu. by rewrite Hu.
    + intros [= <-]. repeat split; simpl; try done.
      * pose proof (holding_insert _ i legacy.WRecv _ Hi) as Hh. simpl in *. lia.
      * pose proof (uncalled_insert _ i legacy.WRecv _ Hi) as Hu. simpl in Hu.
        rewrite !app_nil_r in Hu. by rewrite Hu.
  - (* the draining goroutine *)
    unfold legacy.drain_step. destruct (legacy.st_drain s) as [|[e|]|]; try done;
      intros [= <-]; by repeat split.
Qed.

Lemma wg_Inv_run (sched : list legacy.Actor) (s : State) :
  legacy.Inv s -> legacy.Inv (run sched s).
Proof.
  revert s. induction sched as [|a sched IH]; intros s HI; [done |].
  simpl. apply IH. destruct (step a s) as [s'|] eqn:Hs; [by eapply wg_Inv_step | done].
Qed.

Lemma holding_zero (ws : list legacy.Worker) :
  legacy.holding ws = 0 -> legacy.uncalled ws = [].
Proof. induction ws as [|[] ws IH]; simpl; try done; lia. Qed.

(** In the channel-based command, whatever the interleaving of the
    goroutines: when [main] has returned from [wg.Wait()], the channel
    [jobs] is empty, no worker holds a job, and the jobs that were called
    are the jobs that were sent, each as often as it was sent. *)
Theorem legacy_main_returns_after_all_jobs (sched : list legacy.Actor) (w : World) :
  let s := run sched (legacy.init w) in
  legacy.st_main s = legacy.MReturned ->
  legacy.st_jobs s = [] /\
  legacy.holding (legacy.st_workers s) = 0 /\
  legacy.st_executed s ≡ₚ legacy.st_submitted s.
Proof.
  intros s Hret.
  destruct (wg_Inv_run sched _ (wg_Inv_init w)) as (Hwg & Hperm & _ & Hzero). fold s in Hwg, Hperm, Hzero.
  rewrite (Hzero Hret) in Hwg.
  assert (Hjobs : legacy.st_jobs s = []).
  { destruct (legacy.st_jobs s); [done | simpl in Hwg; lia]. }
  assert (Hhold : legacy.holding (legacy.st_workers s) = 0) by lia.
  repeat split; try done.
  rewrite <- Hperm, Hjobs, (holding_zero _ Hhold). by rewrite !app_nil_r.
Qed.

End LegacyFacts.

(** A run of the channel-based command in which nothing fails: [main]
    returns, after the link job, three article jobs and three page jobs
    have been called. *)
Example legacy_run_returns :
  let s := legacy.run testdata.callL testdata.MkdirAll testdata.ReadDir
             (concat (replicate 30 testdata.fair_round)) (legacy.init 0) in
  legacy.st_main s = legacy.MReturned /\
  legacy.st_drain s = legacy.DWait /\
  legacy.st_world s = 7 /\
  legacy.st_executed s =
    legacy.LinkAssets
    :: map legacy.RenderArticle [".gitkeep"; "broken.md"; "hello.md"]
    ++ map legacy.RenderPage [".gitkeep"; "broken.md"; "hello.md"].
Proof.
  vm_compute. done.
Qed.





(** C5, as amended.  In the pool-based command, when the listing of the
    articles directory fails, [main] ends in [log.Fatal] (status 1) without
    reaching [runTasks], whatever the schedule: no job is run, and the world
    is as [CreateOutputDirs] left it.  In the channel-based command the
    job [linkAssets] is put on [jobs] before the first directory is
    listed. *)
Theorem enumeration_failure_is_fatal {World : Type}
    (call : build.Closure -> World -> option GoError * World)
    Decode CreateOutputDirs ReadDir articlesPath sched (w : World) conf w1 e :
  Decode w = inr conf ->
  CreateOutputDirs w = (None, w1) ->
  ReadDir w1 articlesPath = inl e ->
  build.main call Decode CreateOutputDirs ReadDir articlesPath sched w
  = Some {| build.exit := build.Fatal e; build.ran := None; build.final_world := w1 |} /\
  build.exit_status (build.Fatal e) = 1%Z /\
  (forall (callL : legacy.Job -> World -> option GoError * World) MkdirAll ReadDirL s,
     legacy.over s = false -> legacy.st_main s = legacy.MSubmitLink ->
     (length (legacy.st_jobs s) < legacy.jobsCap)%nat ->
     exists s', legacy.step callL MkdirAll ReadDirL legacy.AMain s = Some s' /\
                legacy.st_main s' = legacy.MGenArticles /\
                legacy.st_jobs s' = legacy.st_jobs s ++ [legacy.LinkAssets]).
Proof.
  intros HD HC HR. split; [|split; [done |]].
  - unfold build.main, build.tasksForArticles. by rewrite HD, HC, HR.
  - intros callL MkdirAll ReadDirL s Hover Hmain Hcap.
    unfold legacy.step, legacy.main_step, legacy.send_jobs. rewrite Hover, Hmain.
    simpl. rewrite decide_True by done. eauto.
Qed.

Lemma enumeration_failure_is_fatal_witness :
  build.main testdata.callC testdata.Decode testdata.CreateOutputDirs
    testdata.ReadDir_failing "content/articles" (testdata.round_robin 3 7) 0
  = Some {| build.exit := build.Fatal "open: no such file or directory";
            build.ran := None; build.final_world := 0 |}.
Proof.
  exact (proj1 (enumeration_failure_is_fatal testdata.callC testdata.Decode
    testdata.CreateOutputDirs testdata.ReadDir_failing "content/articles"
    (testdata.round_robin 3 7) 0 testdata.conf 0 "open: no such file or directory"
    eq_refl eq_refl eq_refl)).
Defined.

(** C5 as stated fails on the channel-based command: the listing of the
    articles fails, yet worker 0 has run the job [linkAssets] before; the
    failure then reaches the draining goroutine, which panics. *)
Lemma legacy_job_runs_although_enumeration_fails :
  let s := legacy.run testdata.callL testdata.MkdirAll testdata.ReadDir_failing
             testdata.sched_enumerate (legacy.init 0) in
  legacy.generateArticleJobs testdata.ReadDir_failing 0
  = ([], Some "open: no such file or directory") /\
  legacy.st_executed s = [legacy.LinkAssets] /\
  legacy.st_drain s = legacy.DPanicked.
Proof. vm_compute. done. Qed.

(** C6, as amended.  [tasksForArticles] makes one task per entry of the
    listing whose name does not start with a dot, in the order of the
    listing, and none for the others.  [generateArticleJobs] and
    [generatePageJobs] of the channel-based command make a job for every
    entry. *)
Theorem tasksForArticles_skips_hidden {World : Type}
    (ReadDir : World -> string -> GoError + list string) articlesPath
    (w : World) (files : list string) :
  ReadDir w articlesPath = inr files ->
  exists tasks,
    build.tasksForArticles ReadDir articlesPath w = inr tasks /\
    tasks = map (fun name => pool.NewTask (build.CompileArticle name))
              (List.filter (fun name => negb (build.isHidden name)) files) /\
    (forall name, pool.NewTask (build.CompileArticle name) ∈ tasks <->
                  name ∈ files /\ ~ exists rest, name = String "."%char rest) /\
    (forall (ReadDirL : World -> string -> GoError + list string) wl filesL,
       (ReadDirL wl legacy.ArticlesDir = inr filesL ->
        legacy.generateArticleJobs ReadDirL wl = (map legacy.RenderArticle filesL, None)) /\
       (ReadDirL wl legacy.PagesDir = inr filesL ->
        legacy.generatePageJobs ReadDirL wl = (map legacy.RenderPage filesL, None))).
Proof.
  intros HR. eexists. split; [by apply tasksForArticles_listing |].
  split; [done |]. split.
  - intros name. rewrite list_elem_of_In, in_map_iff. split.
    + intros (name' & [= <-] & Hin). apply filter_In in Hin as [Hin Hhid].
      split; [by apply list_elem_of_In |].
      intros Hdot. apply isHidden_leading_dot in Hdot. by rewrite Hdot in Hhid.
    + intros [Hin Hdot]. exists name. split; [done |]. apply filter_In.
      split; [by apply list_elem_of_In |].
      destruct (build.isHidden name) eqn:Hhid; [|done].
      exfalso. by apply Hdot, isHidden_leading_dot.
  - intros ReadDirL wl filesL. unfold legacy.generateArticleJobs, legacy.generatePageJobs.
    split; by intros ->.
Qed.

Lemma tasksForArticles_skips_hidden_witness :
  exists tasks,
    build.tasksForArticles testdata.ReadDir "content/articles" 0 = inr tasks /\
    tasks = [pool.NewTask (build.CompileArticle "broken.md");
             pool.NewTask (build.CompileArticle "hello.md")].
Proof.
  destruct (tasksForArticles_skips_hidden testdata.ReadDir "content/articles" 0
              [".gitkeep"; "broken.md"; "hello.md"] eq_refl) as (tasks & Ht & Heq & _).
  exists tasks. split; [exact Ht | exact Heq].
Defined.

(** C6 as stated fails on the channel-based command: the hidden entry
    [.gitkeep] of the listing gets a job like any other. *)
Lemma legacy_hidden_entry_gets_a_job :
  build.isHidden ".gitkeep" = true /\
  legacy.generateArticleJobs testdata.ReadDir 0
  = ([legacy.RenderArticle ".gitkeep"; legacy.RenderArticle "broken.md";
      legacy.RenderArticle "hello.md"], None).
Proof. split; reflexivity. Qed.


(** * Facts about strings *)

Lemma string_app_cons (c : ascii) (a b : string) :
  String c a +:+ b = String c (a +:+ b).
Proof. reflexivity. Qed.

Lemma string_app_nil_l (a : string) : "" +:+ a = a.
Proof. reflexivity. Qed.

Lemma string_app_nil_r (a : string) : a +:+ "" = a.
Proof. induction a as [|c a IH]; [done |]. by rewrite string_app_cons, IH. Qed.

Lemma string_length_app (a b : string) :
  String.length (a +:+ b) = String.length a + String.length b.
Proof. induction a as [|c a IH]; [done |]. rewrite string_app_cons. simpl. by rewrite IH. Qed.

Lemma string_app_assoc (a b c : string) : (a +:+ b) +:+ c = a +:+ (b +:+ c).
Proof. induction a as [|x a IH]; [done |]. by rewrite !string_app_cons, IH. Qed.

Lemma string_app_inj_l (a x y : string) : a +:+ x = a +:+ y -> x = y.
Proof.
  induction a as [|c a IH]; [done |]. rewrite !string_app_cons. intros [= ?]. by apply IH.
Qed.

Lemma prefix_cons (a b : ascii) (x y : string) :
  String.prefix (String a x) (String b y)
  = if Ascii.ascii_dec a b then String.prefix x y else false.
Proof. reflexivity. Qed.

Lemma prefix_nil (y : string) : String.prefix "" y = true.
Proof. by destruct y. Qed.

Lemma prefix_app_l (a x y : string) :
  String.prefix (a +:+ x) (a +:+ y) = String.prefix x y.
Proof.
  induction a as [|c a IH]; [done |]. rewrite !string_app_cons, prefix_cons.
  by destruct (Ascii.ascii_dec c c).
Qed.

Lemma prefix_iff (x y : string) :
  String.prefix x y = true <-> exists z, y = x +:+ z.
Proof.
  revert y. induction x as [|a x IH]; intros y.
  - rewrite prefix_nil. split; [by exists y | done].
  - destruct y as [|b y]; [split; [done | by intros [z ?]] |].
    rewrite prefix_cons. destruct (Ascii.ascii_dec a b) as [<-|Hab].
    + rewrite IH. split; intros [z Hz]; exists z.
      * by rewrite string_app_cons, Hz.
      * rewrite string_app_cons in Hz. by injection Hz.
    + split; [done |]. intros [z Hz]. rewrite string_app_cons in Hz. congruence.
Qed.

Lemma prefix_length (x y : string) :
  String.prefix x y = true -> String.length x <= String.length y.
Proof. intros [z ->]%prefix_iff. rewrite string_length_app. lia. Qed.

Lemma prefix_slash (n m : string) :
  String.prefix (n +:+ "/") m = true -> "/"%char ∈ String.list_ascii_of_string m.
Proof.
  revert m. induction n as [|c n IH]; intros [|b m]; try done.
  - rewrite string_app_nil_l, prefix_cons.
    destruct (Ascii.ascii_dec "/" b) as [<-|]; [|done]. intros _. apply list_elem_of_here.
  - rewrite string_app_cons, prefix_cons.
    destruct (Ascii.ascii_dec c b) as [<-|]; [|done]. intros Hp.
    apply list_elem_of_further. by apply IH.
Qed.

(** * Facts about [ensureSymlink] *)
Section FsFacts.
Implicit Types (fs : gmap string fs.Node) (source dest : string).

Lemma below_refl dest : fs.below dest dest = true.
Proof. unfold fs.below. by rewrite bool_decide_eq_true_2. Qed.

Lemma below_length (d k : string) :
  fs.below d k = true -> String.length d <= String.length k.
Proof.
  unfold fs.below. intros [Heq|Hp]%orb_true_iff.
  - apply bool_decide_eq_true in Heq as ->. lia.
  - apply prefix_length in Hp. rewrite string_length_app in Hp. lia.
Qed.

(** A directory on the way to [d] is neither [d] nor below it. *)
Lemma above_not_below (a d : string) :
  String.prefix (a +:+ "/") d = true -> fs.below d a = false.
Proof.
  intros Hp%prefix_length. rewrite string_length_app in Hp. simpl in Hp.
  destruct (fs.below d a) eqn:Hb; [|done]. apply below_length in Hb. lia.
Qed.

Lemma key_of_app (l1 l2 : list string) :
  fs.key_of (l1 ++ l2) = fs.key_of l1 +:+ fs.key_of l2.
Proof.
  induction l1 as [|n l1 IH]; [done |]. simpl. by rewrite IH, !string_app_assoc.
Qed.

Lemma key_of_slash (l : list string) (tail : string) :
  String.prefix "/" (fs.key_of l +:+ "/" +:+ tail) = true.
Proof.
  apply prefix_iff. destruct l as [|n l]; simpl.
  - by exists tail.
  - exists (n +:+ fs.key_of l +:+ "/" +:+ tail). by rewrite !string_app_assoc.
Qed.

Lemma walk_eq follow budget fs (cur names : list string) :
  fs.walk follow budget fs cur names
  = fs.walk_from fs (fs.at_link follow budget fs) follow cur names.
Proof. by destruct budget. Qed.

Lemma plain_name_eqb (name : string) :
  fs.plain_name name = true -> String.eqb name "." = false /\ String.eqb name ".." = false.
Proof.
  unfold fs.plain_name. intros [H1 H2]%andb_true_iff.
  by apply negb_true_iff in H1, H2.
Qed.

(** Along directories that are directories, the walk goes from one to the
    next. *)
Lemma walk_from_real_dirs fs al follow (ds cur rest : list string) :
  forallb fs.plain_name ds = true -> fs.real_dirs fs cur ds = true ->
  fs.walk_from fs al follow cur (ds ++ rest) = fs.walk_from fs al follow (cur ++ ds) rest.
Proof.
  revert cur. induction ds as [|d ds IH]; intros cur Hplain Hdirs.
  { by rewrite app_nil_r. }
  simpl in Hplain. apply andb_true_iff in Hplain as [[Hd1 Hd2]%plain_name_eqb Hplain].
  simpl in Hdirs. destruct (fs !! fs.key_of (cur ++ [d])) as [[| |t]|] eqn:Hk; try done.
  cbn [app fs.walk_from]. rewrite Hd1, Hd2. cbv zeta. rewrite Hk.
  rewrite IH by done. by rewrite <- app_assoc.
Qed.

(** What [fs.in_place] says. *)
Lemma in_place_inv fs (p : string) :
  fs.in_place fs p = true ->
  exists ds name,
    fs.components p = ds ++ [name] /\ p = fs.key_of (ds ++ [name]) /\
    String.eqb p "" = false /\
    forallb fs.plain_name ds = true /\ fs.plain_name name = true /\
    fs.real_dirs fs [] ds = true.
Proof.
  unfold fs.in_place.
  intros [[[Hne Hkey]%andb_true_iff Hplain]%andb_true_iff Hdirs]%andb_true_iff.
  apply negb_true_iff in Hne. apply String.eqb_eq in Hkey.
  destruct (fs.components p) as [|n0 ns] eqn:Hc using rev_ind.
  { simpl in Hkey. subst p. done. }
  clear IHns. rewrite removelast_last in Hdirs.
  rewrite forallb_app in Hplain. apply andb_true_iff in Hplain as [Hp1 Hp2].
  simpl in Hp2. rewrite andb_true_r in Hp2.
  exists ns, n0. by rewrite Hkey.
Qed.

(** A path in place names the entry found under it. *)
Lemma in_place_locate fs (p : string) :
  fs.in_place fs p = true -> fs.locate fs p = inr (p, fs !! p).
Proof.
  intros (ds & name & Hc & Hkey & Hne & Hplain & [Hn1 Hn2]%plain_name_eqb & Hdirs)%in_place_inv.
  unfold fs.locate. rewrite Hne, Hc, walk_eq.
  rewrite walk_from_real_dirs by done. rewrite app_nil_l.
  cbn [fs.walk_from]. rewrite Hn1, Hn2. cbv zeta. rewrite <- Hkey.
  by destruct (fs !! p) as [[| |t]|].
Qed.

Lemma in_place_place fs (p : string) : fs.in_place fs p = true -> fs.place fs p = p.
Proof. intros Hp. unfold fs.place. by rewrite in_place_locate. Qed.

Lemma in_place_Lstat fs (p : string) :
  fs.in_place fs p = true ->
  fs.Lstat fs p = match fs !! p with Some node => inr node | None => inl fs.ENOENT end.
Proof. intros Hp. unfold fs.Lstat. by rewrite in_place_locate. Qed.

Lemma in_place_links_to fs (p source : string) :
  fs.in_place fs p = true ->
  fs.links_to fs p source <-> fs !! p = Some (fs.Symlink source).
Proof.
  intros Hp. unfold fs.links_to. rewrite in_place_Lstat by done.
  destruct (fs !! p); split; congruence.
Qed.

Lemma in_place_Readlink fs (p : string) :
  fs.in_place fs p = true ->
  fs.Readlink fs p = match fs !! p with
                     | None => inl fs.ENOENT
                     | Some (fs.Symlink target) => inr target
                     | Some _ => inl fs.EINVAL
                     end.
Proof. intros Hp. unfold fs.Readlink. rewrite in_place_Lstat by done. by destruct (fs !! p). Qed.

Lemma real_dirs_agree fs fs' (tail : string) (ds cur : list string) :
  (forall a, String.prefix (a +:+ "/") (fs.key_of (cur ++ ds) +:+ "/" +:+ tail) = true ->
     fs' !! a = fs !! a) ->
  fs.real_dirs fs cur ds = true -> fs.real_dirs fs' cur ds = true.
Proof.
  revert cur. induction ds as [|d ds IH]; intros cur Hagree Hdirs; [done |].
  simpl in *. rewrite Hagree.
  - destruct (fs !! fs.key_of (cur ++ [d])) as [[| |t]|]; try done.
    apply IH; [|done]. intros a Ha. apply Hagree. by rewrite <- app_assoc in Ha.
  - replace (cur ++ d :: ds) with ((cur ++ [d]) ++ ds) by (by rewrite <- app_assoc).
    rewrite (key_of_app (cur ++ [d])), !string_app_assoc, prefix_app_l.
    apply key_of_slash.
Qed.

(** Whether a path is in place depends on the directories on the way to
    it only. *)
Lemma in_place_agree fs fs' (p : string) :
  (forall a, String.prefix (a +:+ "/") p = true -> fs' !! a = fs !! a) ->
  fs.in_place fs p = true -> fs.in_place fs' p = true.
Proof.
  intros Hagree Hp. pose proof Hp as Hp'.
  apply in_place_inv in Hp' as (ds & name & Hc & Hkey & Hne & Hplain & Hname & Hdirs).
  unfold fs.in_place in *. rewrite Hc, removelast_last in *.
  apply andb_true_iff in Hp as [Hp _]. rewrite Hp. simpl.
  apply (real_dirs_agree fs fs' name); [|done].
  intros a Ha. apply Hagree. rewrite Hkey, key_of_app. simpl.
  by rewrite string_app_nil_r.
Qed.

(** A change at [d] and below it leaves [d] in place. *)
Lemma in_place_outside fs fs' (d p : string) :
  (forall k, fs.below d k = false -> fs' !! k = fs !! k) ->
  (forall a, String.prefix (a +:+ "/") p = true -> fs.below d a = false) ->
  fs.in_place fs p = true -> fs.in_place fs' p = true.
Proof. intros Hout Habove. apply in_place_agree. intros a Ha. by apply Hout, Habove. Qed.


(** How the resolution that follows a last link goes with the one that
    does not: an error is the same error, a last name that names nothing is
    "not exist", a file or a directory is found by both. *)
Local Abbreviation follows x y :=
  (match x with
   | inl e => y = inl e
   | inr (_, None) => y = inl fs.ENOENT
   | inr (_, Some (fs.Symlink _)) => True
   | inr (k, Some node) => y = inr (k, Some node)
   end).

Lemma walk_from_follow fs
    (alF alT : list string -> string -> list string -> fs.Errno + fs.Found) :
  (forall cur t rest, follows (alF cur t rest) (alT cur t rest)) ->
  forall names cur,
    follows (fs.walk_from fs alF false cur names) (fs.walk_from fs alT true cur names).
Proof.
  intros Hal names. induction names as [|name rest IH]; intros cur; [done |].
  cbn [fs.walk_from].
  destruct (String.eqb name "."); [apply IH |].
  destruct (String.eqb name ".."); [apply IH |].
  cbv zeta. destruct (fs !! fs.key_of (cur ++ [name])) as [[| |t]|], rest as [|r rest];
    try done; try apply IH; apply Hal.
Qed.

Lemma walk_follow budget fs (cur names : list string) :
  follows (fs.walk false budget fs cur names) (fs.walk true budget fs cur names).
Proof.
  revert cur names. induction budget as [|budget IH]; intros cur names;
    rewrite !walk_eq; apply walk_from_follow; intros cur' t rest; [done |].
  unfold fs.at_link. destruct (String.eqb t ""); [done | apply IH].
Qed.

Lemma Stat_locate fs (p : string) :
  match fs.locate fs p with
  | inl e => fs.Stat fs p = Some e
  | inr (_, None) => fs.Stat fs p = Some fs.ENOENT
  | inr (_, Some (fs.Symlink _)) => True
  | inr (_, Some _) => fs.Stat fs p = None
  end.
Proof.
  unfold fs.Stat, fs.locate, fs.resolve. destruct (String.eqb p ""); [done |].
  pose proof (walk_follow fs.MAXSYMLINKS fs [] (fs.components p)) as H.
  destruct (fs.walk false _ _ _ _) as [e|[k [[| |t]|]]]; by try rewrite H.
Qed.

(** A file system with fewer entries: a way that can be gone there can be
    gone in the larger one, and ends at the same place. *)
Local Abbreviation within x' x :=
  (forall (k : string) (n' : option fs.Node), x' = inr (k, n') -> exists n, x = inr (k, n)).

Lemma walk_from_mono fs' fs
    (al' al : list string -> string -> list string -> fs.Errno + fs.Found) follow :
  fs' ⊆ fs ->
  (forall cur t rest, within (al' cur t rest) (al cur t rest)) ->
  forall names cur,
    within (fs.walk_from fs' al' follow cur names) (fs.walk_from fs al follow cur names).
Proof.
  intros Hsub Hal names. induction names as [|name rest IH]; intros cur k n'.
  { intros [= <- <-]. by eexists. }
  cbn [fs.walk_from].
  destruct (String.eqb name "."); [apply IH |].
  destruct (String.eqb name ".."); [apply IH |].
  cbv zeta. destruct (fs' !! fs.key_of (cur ++ [name])) as [node|] eqn:Hk'.
  - rewrite (lookup_weaken _ _ _ _ Hk' Hsub).
    destruct node as [| |t], rest as [|r rest]; try done; try apply IH; try apply Hal;
      try (intros [= <- <-]; by eexists).
    destruct follow; [apply Hal | intros [= <- <-]; by eexists].
  - destruct rest as [|r rest]; [|done]. destruct follow; [done |].
    intros [= <- <-].
    destruct (fs !! fs.key_of (cur ++ [name])) as [[| |t]|]; by eexists.
Qed.

Lemma walk_mono follow budget fs' fs (cur names : list string) :
  fs' ⊆ fs ->
  within (fs.walk follow budget fs' cur names) (fs.walk follow budget fs cur names).
Proof.
  intros Hsub. revert cur names. induction budget as [|budget IH]; intros cur names;
    rewrite !walk_eq; (apply walk_from_mono; [done |]); intros cur' t rest;
    unfold fs.at_link; [done |].
  destruct (String.eqb t ""); [done | apply IH].
Qed.

Lemma locate_mono fs' fs (p k : string) (n' : option fs.Node) :
  fs' ⊆ fs -> fs.locate fs' p = inr (k, n') -> exists n, fs.locate fs p = inr (k, n).
Proof.
  unfold fs.locate. intros Hsub. destruct (String.eqb p ""); [done |].
  by apply walk_mono.
Qed.

(** What is left when [d] and all below it are removed. *)
Lemma remove_below_lookup fs (d k : string) :
  filter (fun kv : string * fs.Node => fs.below d kv.1 = false) fs !! k
  = if fs.below d k then None else fs !! k.
Proof.
  rewrite map_lookup_filter.
  destruct (fs !! k) as [node|]; simpl.
  - destruct (fs.below d k) eqn:Hb.
    + by rewrite option_guard_False by (simpl; congruence).
    + by rewrite option_guard_True by done.
  - by destruct (fs.below d k).
Qed.

(** The code from the label [create] on changes the entry [dest] names
    and what lies below it, nothing else. *)
Lemma create_outside fs source dest (key : string) :
  fs.below (fs.place fs dest) key = false ->
  fs.fs_after (fs.create fs source dest) !! key = fs !! key.
Proof.
  unfold fs.place, fs.create, fs.RemoveAll, fs.Symlink_.
  destruct (fs.locate fs dest) as [e|[k n]] eqn:HL; intros Hkey.
  - destruct e; try done. destruct (String.eqb source ""); [done |]. by rewrite HL.
  - set (fs' := filter _ fs).
    assert (Hfs' : fs' !! key = fs !! key) by (unfold fs'; by rewrite remove_below_lookup, Hkey).
    destruct (String.eqb source ""); [done |].
    destruct (fs.locate fs' dest) as [e|[k' [node|]]] eqn:HL'; try done.
    destruct (locate_mono fs' fs dest k' None) as [n0 Hn0];
      [apply map_filter_subseteq | done |].
    rewrite HL in Hn0. injection Hn0 as <- _.
    cbn [fs.fs_after]. rewrite lookup_insert_ne; [done |].
    intros <-. by rewrite below_refl in Hkey.
Qed.

Lemma ensureSymlink_outside fs source dest (key : string) :
  fs.below (fs.place fs dest) key = false ->
  fs.fs_after (fs.ensureSymlink fs source dest) !! key = fs !! key.
Proof.
  intros Hkey. unfold fs.ensureSymlink.
  destruct (fs.Stat fs dest) as [e|].
  - destruct e; simpl; try done. by apply create_outside.
  - simpl. destruct (fs.Readlink fs dest) as [e|actual]; [done |].
    destruct (String.eqb actual source); [done |]. by apply create_outside.
Qed.

(** ** A destination in place *)

Lemma RemoveAll_in_place fs dest :
  fs.in_place fs dest = true ->
  fs.RemoveAll fs dest
  = (None, filter (fun kv : string * fs.Node => fs.below dest kv.1 = false) fs).
Proof. intros Hp. unfold fs.RemoveAll. by rewrite in_place_locate. Qed.

Lemma RemoveAll_lookup fs dest (k : string) :
  fs.in_place fs dest = true ->
  (fs.RemoveAll fs dest).2 !! k = if fs.below dest k then None else fs !! k.
Proof. intros Hp. rewrite RemoveAll_in_place by done. apply remove_below_lookup. Qed.

Lemma RemoveAll_stays_in_place fs dest :
  fs.in_place fs dest = true -> fs.in_place (fs.RemoveAll fs dest).2 dest = true.
Proof.
  intros Hp. apply (in_place_outside fs _ dest); [| intros a; apply above_not_below | done].
  intros k Hk. by rewrite RemoveAll_lookup, Hk.
Qed.

(** The path from the label [create]: the old entry goes, the link comes. *)
Lemma create_eq fs source dest :
  fs.in_place fs dest = true -> source <> "" ->
  fs.create fs source dest
  = {| fs.err := None;
       fs.fs_after := <[dest := fs.Symlink source]> (fs.RemoveAll fs dest).2;
       fs.mutations := [fs.DidRemoveAll dest; fs.DidSymlink source dest] |}.
Proof.
  intros Hp Hsrc. pose proof (RemoveAll_stays_in_place fs dest Hp) as Hp'.
  pose proof (RemoveAll_lookup fs dest dest Hp) as Hdest. rewrite below_refl in Hdest.
  unfold fs.create. rewrite RemoveAll_in_place in * by done. cbn [snd] in *.
  unfold fs.Symlink_. apply String.eqb_neq in Hsrc. rewrite Hsrc.
  by rewrite in_place_locate, Hdest.
Qed.


Lemma Readlink_inr fs dest actual :
  fs.in_place fs dest = true ->
  fs.Readlink fs dest = inr actual <-> fs !! dest = Some (fs.Symlink actual).
Proof.
  intros Hp. rewrite in_place_Readlink by done.
  destruct (fs !! dest) as [[| |target]|]; split; try done; by intros [= ->].
Qed.

(** [ensureSymlink] either goes through [create], or leaves everything
    as it is; it leaves without error only past a link to [source]. *)
Lemma ensureSymlink_shape fs source dest :
  fs.in_place fs dest = true -> source <> "" ->
  let r := fs.ensureSymlink fs source dest in
  r = {| fs.err := None;
         fs.fs_after := <[dest := fs.Symlink source]> (fs.RemoveAll fs dest).2;
         fs.mutations := [fs.DidRemoveAll dest; fs.DidSymlink source dest] |} \/
  (fs.fs_after r = fs /\ fs.mutations r = [] /\
   fs.IsNotExist (fs.Stat fs dest) = false /\
   (fs.err r = None -> fs !! dest = Some (fs.Symlink source))).
Proof.
  intros Hp Hsrc. unfold fs.ensureSymlink.
  destruct (fs.Stat fs dest) as [e|] eqn:HS.
  - destruct e; simpl; try (by right). left. by apply create_eq.
  - simpl. destruct (fs.Readlink fs dest) as [e|actual] eqn:HR; [by right |].
    apply Readlink_inr in HR; [|done].
    destruct (String.eqb actual source) eqn:Heq.
    + apply String.eqb_eq in Heq as ->. by right.
    + left. by apply create_eq.
Qed.

(** After a call of [ensureSymlink], [dest] is in place as before. *)
Lemma ensureSymlink_stays_in_place fs source dest (p : string) :
  fs.in_place fs dest = true ->
  (forall a, String.prefix (a +:+ "/") p = true -> fs.below dest a = false) ->
  fs.in_place fs p = true ->
  fs.in_place (fs.fs_after (fs.ensureSymlink fs source dest)) p = true.
Proof.
  intros Hd Habove. apply in_place_outside with (d := dest); [|done].
  intros k Hk. apply ensureSymlink_outside. by rewrite in_place_place.
Qed.

End FsFacts.










(** * Facts about [getLocals] *)

(** The map of defaults [getLocals] starts from. *)
Lemma getLocals_union (conf : build.Conf) (Release title : string)
    (locals : gmap string build.Value) :
  build.getLocals conf Release title locals
  = locals ∪
    (<["GoogleAnalyticsID" := build.VString (build.GoogleAnalyticsID conf)]>
     (<["LocalFonts" := build.VBool (build.LocalFonts conf)]>
     (<["Release" := build.VString Release]>
     (<["Title" := build.VString title]>
     (<["ViewportWidth" := build.VString "device-width"]> ∅))))).
Proof.
  unfold build.getLocals.
  apply (map_fold_weak_ind (fun r (m : gmap string build.Value) => r = m ∪ _)).
  - by rewrite (left_id_L ∅ (∪)).
  - intros k v m r _ ->. by rewrite insert_union_l.
Qed.

(** C10.  The map [getLocals] returns has every key of [locals] with the
    value [locals] gives it, also when the key is one of the defaults
    ("Title" included); each of the five default keys that [locals] does not
    have carries its default; and there is no other key. *)
Theorem getLocals_locals_over_defaults (conf : build.Conf) (Release title : string)
    (locals : gmap string build.Value) :
  let result := build.getLocals conf Release title locals in
  (forall k v, locals !! k = Some v -> result !! k = Some v) /\
  (locals !! "GoogleAnalyticsID" = None ->
   result !! "GoogleAnalyticsID" = Some (build.VString (build.GoogleAnalyticsID conf))) /\
  (locals !! "LocalFonts" = None ->
   result !! "LocalFonts" = Some (build.VBool (build.LocalFonts conf))) /\
  (locals !! "Release" = None -> result !! "Release" = Some (build.VString Release)) /\
  (locals !! "Title" = None -> result !! "Title" = Some (build.VString title)) /\
  (locals !! "ViewportWidth" = None ->
   result !! "ViewportWidth" = Some (build.VString "device-width")) /\
  (forall k, is_Some (result !! k) <->
             is_Some (locals !! k) \/
             k ∈ ["GoogleAnalyticsID"; "LocalFonts"; "Release"; "Title"; "ViewportWidth"]).
Proof.
  intros result. unfold result. rewrite getLocals_union.
  split; [|repeat split].
  - intros k v Hk. by apply lookup_union_Some_l.
  - intros Hk. by rewrite lookup_union_r.
  - intros Hk. by rewrite lookup_union_r.
  - intros Hk. by rewrite lookup_union_r.
  - intros Hk. by rewrite lookup_union_r.
  - intros Hk. by rewrite lookup_union_r.
  - rewrite lookup_union_is_Some. intros [Hk|Hk]; [by left | right].
    rewrite !lookup_insert_is_Some, lookup_empty in Hk.
    rewrite !elem_of_cons.
    destruct Hk as [<-|[_ [<-|[_ [<-|[_ [<-|[_ [<-|[_ Hk]]]]]]]]]]; eauto 10.
    by destruct Hk.
  - rewrite lookup_union_is_Some, !lookup_insert_is_Some, lookup_empty.
    rewrite !elem_of_cons, elem_of_nil.
    intros [Hk|Hk]; [by left | right].
    destruct (decide ("GoogleAnalyticsID" = k)); [by left | right; split; [done |]].
    destruct (decide ("LocalFonts" = k)); [by left | right; split; [done |]].
    destruct (decide ("Release" = k)); [by left | right; split; [done |]].
    destruct (decide ("Title" = k)); [by left | right; split; [done |]].
    destruct (decide ("ViewportWidth" = k)); [by left | right; split; [done |]].
    exfalso. destruct Hk as [?|[?|[?|[?|[?|[]]]]]]; done.
Qed.

Lemma getLocals_locals_over_defaults_witness :
  let result := build.getLocals testdata.conf "7" "Hello" testdata.locals_titled in
  testdata.locals_titled !! "Title" = Some (build.VString "Override") /\
  testdata.locals_titled !! "Release" = None /\
  result !! "Title" = Some (build.VString "Override") /\
  result !! "Release" = Some (build.VString "7").
Proof.
  pose proof (getLocals_locals_over_defaults testdata.conf "7" "Hello"
                testdata.locals_titled) as (Hlocals & _ & _ & Hrelease & _).
  assert (Htitle : testdata.locals_titled !! "Title" = Some (build.VString "Override"))
    by (vm_compute; reflexivity).
  assert (Hnone : testdata.locals_titled !! "Release" = None) by (vm_compute; reflexivity).
  exact (conj Htitle (conj Hnone (conj (Hlocals _ _ Htitle) (Hrelease Hnone)))).
Defined.

(** The assertions of [TestGetLocals]. *)
Example TestGetLocals :
  let locals := build.getLocals testdata.conf "7" "Title" testdata.locals_foo in
  locals !! "Foo" = Some (build.VString "Bar") /\
  locals !! "Release" = Some (build.VString "7") /\
  locals !! "Title" = Some (build.VString "Title").
Proof. vm_compute. done. Qed.

(** The assertions of [TestIsHidden]. *)
Example TestIsHidden :
  build.isHidden ".gitkeep" = true /\ build.isHidden "article" = false.
Proof. split; reflexivity. Qed.

(** The assertions of [TestRunTasks], with three workers taking turns. *)
Example TestRunTasks :
  build.ok <$> build.runTasks testdata.call 3 (testdata.round_robin 3 4)
                 testdata.tasks_success 0 = Some true /\
  build.ok <$> build.runTasks testdata.call 3 (testdata.round_robin 3 4)
                 testdata.tasks_one_failure 0 = Some false /\
  build.ok <$> build.runTasks testdata.call 3 (testdata.round_robin 3 9)
                 testdata.tasks_eleven_failures 0 = Some false.
Proof. vm_compute. done. Qed.

(** Paths that are not in place.  Through a link to the directory
    [public], the link is made in that directory, and the second call finds
    it. *)
Example ensureSymlink_through_linked_directory :
  let dest := "/site/pub/assets/fonts" in
  let r1 := fs.ensureSymlink examples.fs_linked_public testdata.fonts_source dest in
  let r2 := fs.ensureSymlink (fs.fs_after r1) testdata.fonts_source dest in
  fs.place examples.fs_linked_public dest = testdata.fonts_dest /\
  fs.err r1 = None /\
  fs.fs_after r1 !! testdata.fonts_dest = Some (fs.Symlink testdata.fonts_source) /\
  fs.fs_after r1 !! dest = None /\
  r2 = {| fs.err := None; fs.fs_after := fs.fs_after r1; fs.mutations := [] |}.
Proof. vm_compute. done. Qed.

(** With a file where a directory on the way to [dest] should be,
    [os.Stat] fails with "not a directory", which [ensureSymlink]
    returns. *)
Example ensureSymlink_below_a_file :
  fs.ensureSymlink examples.fs_public_is_file testdata.fonts_source testdata.fonts_dest
  = {| fs.err := Some fs.ENOTDIR; fs.fs_after := examples.fs_public_is_file;
       fs.mutations := [] |}.
Proof. vm_compute. done. Qed.

(** A link whose target is reached through a linked directory resolves,
    and is left alone. *)
Example ensureSymlink_target_through_link :
  fs.ensureSymlink examples.fs_linked_content testdata.fonts_source testdata.fonts_dest
  = {| fs.err := None; fs.fs_after := examples.fs_linked_content; fs.mutations := [] |}.
Proof. vm_compute. done. Qed.

(** The first two cases of [TestEnsureSymlink]: the link is created, and
    the second call finds it. *)
Example TestEnsureSymlink :
  let r1 := fs.ensureSymlink testdata.fs_fresh testdata.fonts_source testdata.fonts_dest in
  let r2 := fs.ensureSymlink (fs.fs_after r1) testdata.fonts_source testdata.fonts_dest in
  fs.err r1 = None /\
  fs.Readlink (fs.fs_after r1) testdata.fonts_dest = inr testdata.fonts_source /\
  fs.err r2 = None /\
  fs.Readlink (fs.fs_after r2) testdata.fonts_dest = inr testdata.fonts_source.
Proof. vm_compute. done. Qed.


(** * Further facts about [ensureSymlink] *)

(** [ensureSymlink] never changes a path that is neither the entry [dest]
    names nor below it, whatever it finds there and whether or not it
    succeeds: the source and every other entry stay as they are.  The entry
    is [dest] itself, unless a directory on the way to [dest] is a symbolic
    link. *)
Theorem ensureSymlink_frame (fs : gmap string fs.Node) (source dest k : string) :
  fs.below (fs.place fs dest) k = false ->
  fs.fs_after (fs.ensureSymlink fs source dest) !! k = fs !! k.
Proof. apply ensureSymlink_outside. Qed.

Lemma ensureSymlink_frame_witness :
  fs.place testdata.fs_dest_elsewhere testdata.fonts_dest = testdata.fonts_dest /\
  fs.fs_after (fs.ensureSymlink testdata.fs_dest_elsewhere testdata.fonts_source
                 testdata.fonts_dest) !! "/site/old" = Some fs.Dir.
Proof.
  assert (Hplace : fs.place testdata.fs_dest_elsewhere testdata.fonts_dest
                   = testdata.fonts_dest) by (vm_compute; reflexivity).
  assert (Hout : fs.below (fs.place testdata.fs_dest_elsewhere testdata.fonts_dest)
                   "/site/old" = false) by (vm_compute; reflexivity).
  split; [exact Hplace |].
  rewrite (ensureSymlink_frame testdata.fs_dest_elsewhere testdata.fonts_source
             testdata.fonts_dest "/site/old" Hout).
  vm_compute. reflexivity.
Defined.

(** [ensureSymlink] removes nothing but a symbolic link: whenever it gets
    to [os.RemoveAll], [dest] names nothing or a symbolic link.  A regular
    file or a directory that [dest] names is left alone, with its content,
    and the error of [os.Readlink] is returned. *)
Theorem ensureSymlink_spares_files (fs : gmap string fs.Node) (source dest : string) :
  let r := fs.ensureSymlink fs source dest in
  (fs.mutations r <> [] ->
   fs.Lstat fs dest = inl fs.ENOENT \/
   exists target, fs.Lstat fs dest = inr (fs.Symlink target)) /\
  (fs.Lstat fs dest = inr fs.File \/ fs.Lstat fs dest = inr fs.Dir ->
   r = {| fs.err := Some fs.EINVAL; fs.fs_after := fs; fs.mutations := [] |}).
Proof.
  intros r. pose proof (Stat_locate fs dest) as HS.
  unfold r, fs.ensureSymlink, fs.Readlink, fs.Lstat.
  destruct (fs.locate fs dest) as [e|[k [[| |t]|]]]; try rewrite HS; simpl.
  - split; [|by intros [|]]. intros Hmut. left. destruct e; try done.
  - split; [done |]. by intros _.
  - split; [done |]. by intros _.
  - split; [by eauto | by intros [|]].
  - split; [by left | by intros [|]].
Qed.

Lemma ensureSymlink_spares_files_witness :
  let r := fs.ensureSymlink examples.fs_dest_is_dir testdata.fonts_source
             testdata.fonts_dest in
  fs.Lstat examples.fs_dest_is_dir testdata.fonts_dest = inr fs.Dir /\
  fs.err r = Some fs.EINVAL /\
  fs.fs_after r !! (testdata.fonts_dest +:+ "/a.woff") = Some fs.File.
Proof.
  assert (Hdir : fs.Lstat examples.fs_dest_is_dir testdata.fonts_dest = inr fs.Dir)
    by (vm_compute; reflexivity).
  pose proof (proj2 (ensureSymlink_spares_files examples.fs_dest_is_dir
                testdata.fonts_source testdata.fonts_dest) (or_intror Hdir)) as Hr.
  cbv zeta. rewrite Hr. split; [exact Hdir |]. split; [reflexivity |].
  vm_compute. reflexivity.
Defined.

(** Where [dest] is in place, nothing exists at [dest] or below it and
    [source] is a name, [ensureSymlink] adds the link and nothing else: the
    file system afterwards is the one before with [dest] bound to a link to
    [source]. *)
Theorem ensureSymlink_creates_missing (fs : gmap string fs.Node) (source dest : string) :
  fs.in_place fs dest = true -> source <> "" ->
  (forall k, fs.below dest k = true -> fs !! k = None) ->
  fs.ensureSymlink fs source dest
  = {| fs.err := None; fs.fs_after := <[dest := fs.Symlink source]> fs;
       fs.mutations := [fs.DidRemoveAll dest; fs.DidSymlink source dest] |}.
Proof.
  intros Hp Hsrc Hfree.
  assert (Hdest : fs !! dest = None) by apply Hfree, below_refl.
  pose proof (Stat_locate fs dest) as HS.
  rewrite in_place_locate, Hdest in HS by done.
  unfold fs.ensureSymlink. rewrite HS. simpl. rewrite create_eq by done.
  do 2 f_equal. apply map_eq. intros k. rewrite RemoveAll_lookup by done.
  destruct (fs.below dest k) eqn:Hb; [|done]. symmetry. by apply Hfree.
Qed.

Lemma ensureSymlink_creates_missing_witness :
  fs.in_place testdata.fs_fresh testdata.fonts_dest = true /\
  fs.fs_after (fs.ensureSymlink testdata.fs_fresh testdata.fonts_source testdata.fonts_dest)
  = <[testdata.fonts_dest := fs.Symlink testdata.fonts_source]> testdata.fs_fresh.
Proof.
  assert (Hp : fs.in_place testdata.fs_fresh testdata.fonts_dest = true)
    by (vm_compute; reflexivity).
  assert (Hsrc : testdata.fonts_source <> "") by discriminate.
  split; [exact Hp |].
  rewrite (ensureSymlink_creates_missing testdata.fs_fresh testdata.fonts_source
             testdata.fonts_dest Hp Hsrc); [reflexivity |].
  assert (Hall : map_Forall (fun k _ => fs.below testdata.fonts_dest k = false)
                   testdata.fs_fresh)
    by (refine (bool_decide_unpack _ _); vm_compute; exact I).
  intros k Hk.
  destruct (testdata.fs_fresh !! k) as [node|] eqn:Hlook; [exfalso | done].
  apply Hall in Hlook. congruence.
Defined.


(** * Further facts about [runTasks] *)

Lemma failures_app {J : Type} (ts1 ts2 : list (pool.Task J)) :
  build.failures (ts1 ++ ts2) = build.failures ts1 ++ build.failures ts2.
Proof.
  induction ts1 as [|t ts1 IH]; [done |].
  rewrite <- app_comm_cons, !failures_cons, IH. by destruct (pool.Err t).
Qed.

(** The log of [runTasks], whatever the number of failures: fewer than 10
    failed tasks are logged one line each, in the order of the tasks, and
    there is no "Too many errors." line; from 10 failed tasks on, the first
    10 are logged and the marker ends the log.  The log never has more than
    11 lines.  With at least one worker [runTasks] does return (last
    part). *)
Theorem runTasks_log_shape {World J : Type}
    (call : J -> World -> option GoError * World)
    conc sched (tasks : list (pool.Task J)) (w : World) r :
  build.runTasks call conc sched tasks w = Some r ->
  let failed := build.failures (build.tasks_after r) in
  (length failed < 10 -> build.logged r = LogErrorErr <$> failed) /\
  (10 <= length failed ->
   build.logged r = (LogErrorErr <$> take 10 failed) ++ [TooManyErrors]) /\
  length (build.logged r) <= 11 /\
  (TooManyErrors ∈ build.logged r <-> 10 <= length failed) /\
  ((1 <= conc)%Z ->
   forall sched0, exists more, is_Some (build.runTasks call conc (sched0 ++ more) tasks w)).
Proof.
  intros Hrun failed. destruct (runTasks_Some _ _ _ _ _ _ Hrun) as (_ & _ & _ & Hlog).
  assert (Hreturns : (1 <= conc)%Z ->
            forall sched0, exists more,
              is_Some (build.runTasks call conc (sched0 ++ more) tasks w))
    by (intros Hconc sched0; by apply runTasks_returns).
  rewrite Hlog, report_from_zero. fold failed.
  assert (Hnomark : TooManyErrors ∉ LogErrorErr <$> failed).
  { intros Hin. apply list_elem_of_fmap in Hin as (e & He & _). discriminate. }
  case_decide as Hten.
  - split; [intros; lia |]. split; [done |]. split.
    + rewrite length_app, length_fmap, length_take.
      change (length [TooManyErrors]) with 1. lia.
    + split; [|done]. split; [done |]. intros _. apply elem_of_app. right.
      by apply list_elem_of_singleton.
  - split; [done |]. split; [intros; lia |]. split.
    + rewrite length_fmap. lia.
    + split; [|done]. split; [done | intros; lia].
Qed.

Lemma runTasks_log_shape_witness :
  build.runTasks testdata.call 3 (testdata.round_robin 3 4)
    testdata.tasks_one_failure 0 = Some testdata.ran_one_failure /\
  build.logged testdata.ran_one_failure
  = LogErrorErr <$> build.failures (build.tasks_after testdata.ran_one_failure).
Proof.
  split; [reflexivity |].
  apply (proj1 (runTasks_log_shape testdata.call 3 (testdata.round_robin 3 4)
    testdata.tasks_one_failure 0 testdata.ran_one_failure eq_refl)).
  vm_compute. lia.
Defined.

(** The loop of [runTasks] leaves at the tenth failure: the tasks after it
    are not looked at, so the log is the same whatever follows. *)
Theorem report_stops_at_tenth_failure {J : Type} (tasks more : list (pool.Task J)) :
  10 <= length (build.failures tasks) ->
  build.report (tasks ++ more) 0 = build.report tasks 0.
Proof.
  intros Hten. rewrite !report_from_zero, failures_app, length_app.
  rewrite !decide_True by lia. by rewrite take_app_le by lia.
Qed.

Lemma report_stops_at_tenth_failure_witness :
  build.report (build.tasks_after testdata.ran_ten_failures
                ++ build.tasks_after testdata.ran_one_failure) 0
  = build.report (build.tasks_after testdata.ran_ten_failures) 0.
Proof.
  apply (report_stops_at_tenth_failure (build.tasks_after testdata.ran_ten_failures)
           (build.tasks_after testdata.ran_one_failure)).
  vm_compute. lia.
Defined.


(** * Further facts about [getLocals] *)

(** Locals that went through [getLocals] once are not changed by going
    through it again, even with another title: the title set first stays. *)
Theorem getLocals_rewrap (conf : build.Conf) (Release title1 title2 : string)
    (locals : gmap string build.Value) :
  build.getLocals conf Release title2 (build.getLocals conf Release title1 locals)
  = build.getLocals conf Release title1 locals.
Proof.
  rewrite !getLocals_union. apply map_eq. intros k.
  rewrite (lookup_union (locals ∪ _)).
  destruct ((locals ∪ _) !! k) as [v|] eqn:Hk.
  - match goal with |- Some v ∪ ?o = _ => by destruct o end.
  - apply lookup_union_None in Hk as [_ Hk].
    rewrite !lookup_insert_None in Hk. destruct Hk as [[[[[_ ?] ?] ?] ?] ?].
    by rewrite !lookup_insert_ne, lookup_empty by done.
Qed.


(** * Further facts about the channel-based command *)

Lemma legacy_main_returns_after_all_jobs_witness :
  let s := legacy.run testdata.callL testdata.MkdirAll testdata.ReadDir
             (concat (replicate 30 testdata.fair_round)) (legacy.init 0) in
  legacy.st_main s = legacy.MReturned /\
  legacy.st_executed s ≡ₚ legacy.st_submitted s.
Proof.
  split; [vm_compute; reflexivity |].
  apply (legacy_main_returns_after_all_jobs testdata.callL testdata.MkdirAll
           testdata.ReadDir (concat (replicate 30 testdata.fair_round)) 0).
  vm_compute. reflexivity.
Defined.

Section LegacyBounds.
Context {World : Type}.
Variable call : legacy.Job -> World -> option GoError * World.
Variable MkdirAll : World -> string -> option GoError * World.
Variable ReadDir : World -> string -> GoError + list string.

Lemma jobs_within_capacity_step (a : legacy.Actor) (s s' : legacy.State World) :
  length (legacy.st_jobs s) <= legacy.jobsCap ->
  legacy.step call MkdirAll ReadDir a s = Some s' ->
  length (legacy.st_jobs s') <= legacy.jobsCap.
Proof.
  intros Hcap. unfold legacy.step. destruct (legacy.over s); [done |].
  destruct a as [|i|].
  - unfold legacy.main_step.
    destruct (legacy.st_main s) as [|e k| | |ajs|ajs pjs|[|job rest]| |].
    + destruct (MkdirAll _ _). by intros [= <-].
    + unfold legacy.send_errors. destruct (legacy.st_drain s); try done. by intros [= <-].
    + unfold legacy.send_jobs. simpl. case_decide; [|done]. intros [= <-]. simpl.
      rewrite length_app. simpl. lia.
    + destruct (legacy.generateArticleJobs _ _). by intros [= <-].
    + destruct (legacy.generatePageJobs _ _). by intros [= <-].
    + by intros [= <-].
    + by intros [= <-].
    + unfold legacy.send_jobs. case_decide; [|done]. intros [= <-]. simpl.
      rewrite length_app. simpl. lia.
    + case_decide; [|done]. by intros [= <-].
    + done.
  - unfold legacy.worker_step.
    destruct (legacy.st_workers s !! i) as [[|job|r|]|]; [| | | |done].
    + destruct (legacy.st_jobs s) as [|job rest] eqn:Hjobs; [done |].
      intros [= <-]. simpl in *. lia.
    + destruct (call job (legacy.st_world s)). by intros [= <-].
    + unfold legacy.send_errors. destruct (legacy.st_drain s); try done. by intros [= <-].
    + by intros [= <-].
  - unfold legacy.drain_step. destruct (legacy.st_drain s) as [|[e|]|]; try done;
      by intros [= <-].
Qed.

Lemma jobs_within_capacity_run (sched : list legacy.Actor) (s : legacy.State World) :
  length (legacy.st_jobs s) <= legacy.jobsCap ->
  length (legacy.st_jobs (legacy.run call MkdirAll ReadDir sched s)) <= legacy.jobsCap.
Proof.
  revert s. induction sched as [|a sched IH]; intros s Hcap; [done |].
  simpl. apply IH.
  destruct (legacy.step call MkdirAll ReadDir a s) as [s'|] eqn:Hs; [|done].
  by eapply jobs_within_capacity_step.
Qed.

(** In the channel-based command, whatever the interleaving and whatever
    the jobs do: the counter of the WaitGroup never goes below zero (no
    [wg.Done()] without its [wg.Add]), it counts exactly the jobs added and
    not yet confirmed, and the channel [jobs] never holds more than its
    capacity. *)
Theorem legacy_waitgroup_never_negative (sched : list legacy.Actor) (w : World) :
  let s := legacy.run call MkdirAll ReadDir sched (legacy.init w) in
  (0 <= legacy.st_wg s)%Z /\
  legacy.st_wg s = Z.of_nat (legacy.owed (legacy.st_main s) + length (legacy.st_jobs s)
                             + legacy.holding (legacy.st_workers s)) /\
  length (legacy.st_jobs s) <= legacy.jobsCap.
Proof.
  intros s.
  destruct (wg_Inv_run call MkdirAll ReadDir sched _ (wg_Inv_init w)) as (Hwg & _).
  fold s in Hwg. split; [lia |]. split; [done |].
  apply jobs_within_capacity_run. simpl. unfold legacy.jobsCap. lia.
Qed.

(** A failure can go unnoticed in the channel-based command.  In any state
    in which [main] is in [wg.Wait()], the last unconfirmed job has returned
    an error that worker [i] is about to send, and the draining goroutine is
    ready to receive: if the worker sends, calls [wg.Done()], and [main]
    moves before the draining goroutine does, [main] returns normally and
    the process is over with the error received but never looked at. *)
Theorem legacy_failure_can_be_lost (s : legacy.State World) (i : nat) (e : GoError) :
  legacy.st_main s = legacy.MWait ->
  legacy.st_workers s !! i = Some (legacy.WSend (Some e)) ->
  legacy.st_drain s = legacy.DWait ->
  legacy.st_wg s = 1%Z ->
  let s' := legacy.run call MkdirAll ReadDir
              [legacy.AWorker i; legacy.AWorker i; legacy.AMain] s in
  legacy.st_main s' = legacy.MReturned /\
  legacy.st_drain s' = legacy.DGot (Some e) /\
  legacy.over s' = true /\
  forall a, legacy.step call MkdirAll ReadDir a s' = None.
Proof.
  intros Hmain Hw Hdrain Hwg.
  assert (Hlt : i < length (legacy.st_workers s)) by (by eapply lookup_lt_Some).
  set (s1 := legacy.set_worker i legacy.WDone (legacy.set_drain (legacy.DGot (Some e)) s)).
  set (s2 := legacy.set_worker i legacy.WRecv (legacy.add_wg (-1) s1)).
  assert (H0 : legacy.step call MkdirAll ReadDir (legacy.AWorker i) s = Some s1).
  { unfold legacy.step, legacy.over, legacy.worker_step, legacy.send_errors.
    by rewrite Hmain, Hdrain, Hw. }
  assert (H1 : legacy.step call MkdirAll ReadDir (legacy.AWorker i) s1 = Some s2).
  { unfold legacy.step, legacy.over, legacy.worker_step. subst s1. simpl.
    rewrite Hmain. by rewrite list_lookup_insert_eq. }
  assert (H2 : legacy.step call MkdirAll ReadDir legacy.AMain s2
               = Some (legacy.set_main legacy.MReturned s2)).
  { unfold legacy.step, legacy.over, legacy.main_step. subst s2 s1. simpl.
    rewrite Hmain, Hwg. by rewrite decide_True. }
  intros s'. subst s'. unfold legacy.run. cbn [fold_left]. rewrite H0, H1, H2.
  repeat split.
Qed.

End LegacyBounds.

Lemma legacy_failure_can_be_lost_witness :
  let s := legacy.run testdata.callL_failing testdata.MkdirAll examples.ReadDir_empty
             examples.sched_until_wait (legacy.init 0) in
  let s' := legacy.run testdata.callL_failing testdata.MkdirAll examples.ReadDir_empty
              [legacy.AWorker 0; legacy.AWorker 0; legacy.AMain] s in
  legacy.st_main s = legacy.MWait /\
  legacy.st_executed s = [legacy.LinkAssets] /\
  legacy.st_main s' = legacy.MReturned /\
  legacy.st_drain s' = legacy.DGot (Some "symlink: file exists").
Proof.
  split; [vm_compute; reflexivity |]. split; [vm_compute; reflexivity |].
  pose proof (legacy_failure_can_be_lost testdata.callL_failing testdata.MkdirAll
                examples.ReadDir_empty
                (legacy.run testdata.callL_failing testdata.MkdirAll examples.ReadDir_empty
                   examples.sched_until_wait (legacy.init 0))
                0 "symlink: file exists" eq_refl eq_refl eq_refl eq_refl)
    as (Hret & Hdrain & _).
  exact (conj Hret Hdrain).
Defined.


(** * Facts about [trimExtension] *)

Lemma string_of_list_ascii_snoc (l : list ascii) (c : ascii) (s : string) :
  String.string_of_list_ascii (l ++ [c]) +:+ s
  = String.string_of_list_ascii l +:+ String c s.
Proof.
  induction l as [|x l IH]; [done |]. simpl. by rewrite !string_app_cons, IH.
Qed.

Lemma list_ascii_of_string_app (a b : string) :
  String.list_ascii_of_string (a +:+ b)
  = String.list_ascii_of_string a ++ String.list_ascii_of_string b.
Proof.
  induction a as [|x a IH]; [done |]. rewrite string_app_cons. simpl. by rewrite IH.
Qed.

Lemma substring_whole (s : string) : String.substring 0 (String.length s) s = s.
Proof. induction s as [|c s IH]; simpl; [done | by rewrite IH]. Qed.

Lemma substring_app_l (a b : string) :
  String.substring 0 (String.length a) (a +:+ b) = a.
Proof.
  induction a as [|x a IH]; [by destruct b |].
  rewrite string_app_cons. simpl. by rewrite IH.
Qed.

Lemma substring_app_r (a b : string) :
  String.substring (String.length a) (String.length b) (a +:+ b) = b.
Proof.
  induction a as [|x a IH]; [apply substring_whole |].
  rewrite string_app_cons. simpl. exact IH.
Qed.

(** Trimming a suffix that is there gives what stands before it. *)
Lemma TrimSuffix_app (a b : string) : paths.TrimSuffix (a +:+ b) b = a.
Proof.
  unfold paths.TrimSuffix, paths.HasSuffix. rewrite string_length_app.
  replace (String.length a + String.length b - String.length b)
    with (String.length a) by lia.
  rewrite substring_app_r, String.eqb_refl, substring_app_l.
  by rewrite (proj2 (Nat.leb_le _ _)) by lia.
Qed.

Lemma plain_cons (c : ascii) (e : string) :
  paths.plain (String c e) <-> (c <> "."%char /\ c <> "/"%char) /\ paths.plain e.
Proof. unfold paths.plain. simpl. by rewrite Forall_cons. Qed.

(** What the loop of [filepath.Ext] returns, and what it leaves in front. *)
Lemma Ext_loop_split (upto : list ascii) (from : string) :
  paths.plain from ->
  exists keep,
    String.string_of_list_ascii (rev upto) +:+ from = keep +:+ paths.Ext_loop upto from /\
    (paths.Ext_loop upto from = "" \/
     exists e, paths.Ext_loop upto from = String "." e /\ paths.plain e).
Proof.
  revert from. induction upto as [|c upto IH]; intros from Hfrom; simpl.
  - exists from. split; [by rewrite string_app_nil_r | by left].
  - rewrite string_of_list_ascii_snoc. unfold paths.IsPathSeparator.
    destruct (Ascii.eqb_spec c "/") as [->|Hsep].
    + eexists. split; [by rewrite string_app_nil_r | by left].
    + destruct (Ascii.eqb_spec c ".") as [->|Hdot].
      * exists (String.string_of_list_ascii (rev upto)). split; [done |]. right. eauto.
      * apply IH. by apply plain_cons.
Qed.

Lemma Ext_split (path : string) :
  exists stem,
    path = stem +:+ paths.Ext path /\
    (paths.Ext path = "" \/ exists e, paths.Ext path = String "." e /\ paths.plain e).
Proof.
  destruct (Ext_loop_split (rev (String.list_ascii_of_string path)) "") as (keep & Heq & Hext).
  { constructor. }
  exists keep. split; [|done].
  by rewrite rev_involutive, String.string_of_list_ascii_of_string, string_app_nil_r in Heq.
Qed.

Lemma trimExtension_app_Ext (file : string) :
  file = paths.trimExtension file +:+ paths.Ext file.
Proof.
  destruct (Ext_split file) as (stem & Heq & _).
  unfold paths.trimExtension. rewrite Heq at 2. by rewrite TrimSuffix_app.
Qed.

Lemma Ext_shape (file : string) :
  paths.Ext file = "" \/ exists e, paths.Ext file = String "." e /\ paths.plain e.
Proof. by destruct (Ext_split file) as (_ & _ & ?). Qed.

(** [trimExtension] takes off the extension and nothing else: [file] is
    the result followed by an extension that is empty or a dot followed by
    characters that are neither dot nor slash. *)
Theorem trimExtension_splits (file : string) :
  exists ext,
    file = paths.trimExtension file +:+ ext /\
    ext = paths.Ext file /\
    (ext = "" \/ exists e, ext = String "." e /\ paths.plain e).
Proof.
  exists (paths.Ext file). split; [apply trimExtension_app_Ext |].
  split; [done | apply Ext_shape].
Qed.

Lemma Ext_loop_plain (mid rest : list ascii) (from : string) :
  Forall (fun c => c <> "."%char /\ c <> "/"%char) mid ->
  paths.Ext_loop (mid ++ rest) from
  = paths.Ext_loop rest (String.string_of_list_ascii (rev mid) +:+ from).
Proof.
  intros Hmid. revert from.
  induction Hmid as [|c mid [Hdot Hsep] _ IH]; intros from; simpl; [done |].
  unfold paths.IsPathSeparator.
  destruct (Ascii.eqb_spec c "/") as [->|_]; [done |].
  destruct (Ascii.eqb_spec c ".") as [->|_]; [done |].
  by rewrite IH, string_of_list_ascii_snoc.
Qed.

Lemma Ext_of_stem_ext (stem ext : string) :
  paths.plain ext -> paths.Ext (stem +:+ String "." ext) = String "." ext.
Proof.
  intros Hplain. unfold paths.Ext. rewrite list_ascii_of_string_app. simpl.
  rewrite rev_app_distr. simpl. rewrite <- app_assoc. simpl.
  rewrite Ext_loop_plain by (by apply Forall_rev). simpl.
  by rewrite rev_involutive, String.string_of_list_ascii_of_string, string_app_nil_r.
Qed.

Lemma trimExtension_of_stem_ext (stem ext : string) :
  paths.plain ext -> paths.trimExtension (stem +:+ String "." ext) = stem.
Proof.
  intros Hplain. unfold paths.trimExtension.
  rewrite Ext_of_stem_ext by done. apply TrimSuffix_app.
Qed.

(** The round trip of a name and its extension: whatever the stem (it may
    contain dots and slashes, and may be empty), [trimExtension] gives it
    back from [stem.ext] when [ext] has no dot and no slash. *)
Theorem trimExtension_stem_ext (stem ext : string) :
  paths.plain ext ->
  paths.Ext (stem +:+ String "." ext) = String "." ext /\
  paths.trimExtension (stem +:+ String "." ext) = stem.
Proof.
  intros Hplain. split; [by apply Ext_of_stem_ext | by apply trimExtension_of_stem_ext].
Qed.

Lemma trimExtension_stem_ext_witness :
  paths.trimExtension "2015-03-01-hello.world.md" = "2015-03-01-hello.world".
Proof.
  apply (trimExtension_stem_ext "2015-03-01-hello.world" "md").
  unfold paths.plain. simpl. repeat constructor; discriminate.
Defined.

(** A name without a dot is its own result. *)
Theorem trimExtension_no_dot (file : string) :
  "."%char ∉ String.list_ascii_of_string file ->
  paths.trimExtension file = file.
Proof.
  intros Hnodot. pose proof (trimExtension_app_Ext file) as Heq.
  destruct (Ext_shape file) as [Hext|(e & Hext & _)]; rewrite Hext in Heq.
  - by rewrite string_app_nil_r in Heq.
  - exfalso. apply Hnodot. rewrite Heq, list_ascii_of_string_app. simpl.
    apply elem_of_app. right. apply list_elem_of_here.
Qed.

Lemma trimExtension_no_dot_witness : paths.trimExtension "about" = "about".
Proof.
  apply trimExtension_no_dot. simpl.
  rewrite !elem_of_cons, elem_of_nil. intros [H|[H|[H|[H|[H|H]]]]]; try discriminate; done.
Defined.

(** When the result is empty: only for the empty name and for a name that
    is a dot followed by characters that are neither dot nor slash.  So
    every entry that [isHidden] lets through and that has a name at all
    keeps a non-empty name, while a hidden entry such as [.gitkeep] is left
    with the empty name. *)
Theorem trimExtension_empty_iff (name : string) :
  (paths.trimExtension name = "" <->
   name = "" \/ exists e, name = String "." e /\ paths.plain e) /\
  (build.isHidden name = false -> name <> "" -> paths.trimExtension name <> "").
Proof.
  assert (Hiff : paths.trimExtension name = "" <->
                 name = "" \/ exists e, name = String "." e /\ paths.plain e).
  { split.
    - intros Hempty. pose proof (trimExtension_app_Ext name) as Heq.
      rewrite Hempty, string_app_nil_l in Heq.
      destruct (Ext_shape name) as [Hext|(e & Hext & He)]; rewrite Hext in Heq; eauto.
    - intros [->|(e & -> & He)]; [done |].
      by apply (trimExtension_of_stem_ext "" e). }
  split; [done |]. intros Hvisible Hname Hempty.
  apply Hiff in Hempty as [->|(e & -> & _)]; [done |].
  assert (build.isHidden (String "." e) = true); [|congruence].
  apply isHidden_leading_dot. eauto.
Qed.

Lemma trimExtension_empty_iff_witness :
  build.isHidden "index.md" = false /\ paths.trimExtension "index.md" <> "" /\
  paths.trimExtension ".gitkeep" = "".
Proof.
  split; [reflexivity |]. split.
  - apply (proj2 (trimExtension_empty_iff "index.md")); [reflexivity | discriminate].
  - reflexivity.
Defined.


(** * Facts about [linkImages] *)

(** Two entries of one directory are not below one another. *)
Lemma below_sibling (dir n m : string) :
  n <> m -> links.entry_name m ->
  fs.below (dir +:+ "/" +:+ n) (dir +:+ "/" +:+ m) = false.
Proof.
  intros Hne Hm. unfold fs.below. apply orb_false_intro.
  - apply bool_decide_eq_false. intros Heq.
    apply string_app_inj_l, (string_app_inj_l "/") in Heq. congruence.
  - rewrite !string_app_assoc, !prefix_app_l.
    destruct (String.prefix (n +:+ "/") m) eqn:Hp; [|done].
    exfalso. by apply Hm, (prefix_slash n).
Qed.

(** The directories on the way to an entry of a directory are not below
    an entry of that directory. *)
Lemma above_sibling (dir n m a : string) :
  links.entry_name m ->
  String.prefix (a +:+ "/") (dir +:+ "/" +:+ m) = true ->
  fs.below (dir +:+ "/" +:+ n) a = false.
Proof.
  intros Hm Ha. destruct (fs.below (dir +:+ "/" +:+ n) a) eqn:Hb; [exfalso | done].
  apply Hm, (prefix_slash n).
  assert (H : String.prefix ((dir +:+ "/" +:+ n) +:+ "/") (dir +:+ "/" +:+ m) = true).
  { apply prefix_iff in Ha as [z Hz].
    unfold fs.below in Hb. apply orb_true_iff in Hb as [Heq|Hp].
    - apply bool_decide_eq_true in Heq as ->.
      apply prefix_iff. by exists z.
    - apply prefix_iff in Hp as [y ->].
      apply prefix_iff. exists (y +:+ "/" +:+ z). by rewrite Hz, !string_app_assoc. }
  by rewrite !string_app_assoc, !prefix_app_l in H.
Qed.

(** A call of [ensureSymlink] that returns no error leaves the link. *)
Lemma ensureSymlink_ok_links (fs : gmap string fs.Node) (source dest : string) :
  fs.in_place fs dest = true ->
  fs.err (fs.ensureSymlink fs source dest) = None ->
  fs.fs_after (fs.ensureSymlink fs source dest) !! dest = Some (fs.Symlink source).
Proof.
  intros Hp. destruct (String.eqb source "") eqn:Hsrc.
  - apply String.eqb_eq in Hsrc as ->.
    assert (Hcreate : fs.err (fs.create fs "" dest) = Some fs.ENOENT).
    { unfold fs.create. by rewrite RemoveAll_in_place. }
    unfold fs.ensureSymlink. destruct (fs.Stat fs dest) as [e|].
    + destruct e; simpl; try done. by rewrite Hcreate.
    + simpl. destruct (fs.Readlink fs dest) as [e|actual] eqn:HR; [done |].
      apply Readlink_inr in HR; [|done].
      destruct (String.eqb actual "") eqn:Heq; [|by rewrite Hcreate].
      by apply String.eqb_eq in Heq as ->.
  - apply String.eqb_neq in Hsrc.
    pose proof (ensureSymlink_shape fs source dest Hp Hsrc) as Hshape. cbv zeta in Hshape.
    destruct Hshape as [->|(-> & _ & _ & Hl)]; [|done].
    intros _. apply lookup_insert_eq.
Qed.

(** With [dest] in place, a call of [ensureSymlink] that returns an error
    has changed nothing. *)
Lemma ensureSymlink_error_keeps (fs : gmap string fs.Node) (source dest : string) e :
  fs.in_place fs dest = true -> source <> "" ->
  fs.err (fs.ensureSymlink fs source dest) = Some e ->
  fs.fs_after (fs.ensureSymlink fs source dest) = fs /\
  fs.mutations (fs.ensureSymlink fs source dest) = [].
Proof.
  intros Hp Hsrc.
  pose proof (ensureSymlink_shape fs source dest Hp Hsrc) as Hshape. cbv zeta in Hshape.
  destruct Hshape as [->|(-> & -> & _)]; done.
Qed.

(** A link that is found and resolves is left alone. *)
Lemma ensureSymlink_link_found (fs : gmap string fs.Node) (source dest : string) :
  fs.links_to fs dest source -> fs.Stat fs dest = None ->
  fs.ensureSymlink fs source dest
  = {| fs.err := None; fs.fs_after := fs; fs.mutations := [] |}.
Proof.
  unfold fs.links_to. intros Hdest Hstat.
  unfold fs.ensureSymlink, fs.Readlink. rewrite Hstat, Hdest. simpl.
  by rewrite String.eqb_refl.
Qed.

Lemma entry_path_is_name (dir n : string) : dir +:+ "/" +:+ n <> "".
Proof. by destruct dir. Qed.

Section LinksFacts.
Variable Abs : string -> fs.Errno + string.
Variable Join : list string -> string.
Variable ReadDir : gmap string fs.Node -> string -> fs.Errno + list string.
Variable ContentDir TargetDir : string.
(** The absolute paths of the images directory and of the assets
    directory. *)
Variable imagesAbs assetsAbs : string.

Local Abbreviation loop := (links.linkImages_loop Abs ContentDir TargetDir).
Local Abbreviation linkImages := (links.linkImages Abs ReadDir ContentDir TargetDir).

Local Abbreviation resolves :=
  (links.resolves Abs ContentDir TargetDir imagesAbs assetsAbs).

(** The loop over a list of entries followed by more entries. *)
Lemma linkImages_loop_app (names more : list string) fs made :
  loop (names ++ more) fs made
  = let r := loop names fs made in
    match fs.err r with
    | Some _ => r
    | None => loop more (fs.fs_after r) (fs.mutations r)
    end.
Proof.
  revert fs made. induction names as [|n names IH]; intros fs made; simpl; [done |].
  destruct (Abs (ContentDir +:+ _)) as [e|source]; [done |].
  destruct (Abs (TargetDir +:+ _)) as [e|dest]; [done |].
  destruct (fs.err (fs.ensureSymlink fs source dest)) as [e|] eqn:Herr; [done |].
  apply IH.
Qed.

(** The loop changes the entries it links and what lies below them,
    nothing else, whether or not it gets to its end. *)
Lemma linkImages_loop_outside (names : list string) fs made (k : string) :
  Forall resolves names ->
  (forall n, n ∈ names -> fs.in_place fs (assetsAbs +:+ "/" +:+ n) = true) ->
  Forall links.entry_name names ->
  (forall n, n ∈ names -> fs.below (assetsAbs +:+ "/" +:+ n) k = false) ->
  fs.fs_after (loop names fs made) !! k = fs !! k.
Proof.
  intros Hres. revert fs made.
  induction names as [|n names IH]; intros fs made Hplace Hnames Hk; [done |].
  apply Forall_cons in Hres as [[HS HD] Hres].
  apply Forall_cons in Hnames as [Hname Hnames].
  assert (Hn : fs.in_place fs (assetsAbs +:+ "/" +:+ n) = true)
    by apply Hplace, list_elem_of_here.
  assert (Hout : fs.fs_after (fs.ensureSymlink fs (imagesAbs +:+ "/" +:+ n)
                                (assetsAbs +:+ "/" +:+ n)) !! k = fs !! k).
  { apply ensureSymlink_outside. rewrite in_place_place by done.
    apply Hk, list_elem_of_here. }
  simpl. rewrite HS, HD.
  destruct (fs.err (fs.ensureSymlink fs _ _)) as [e|] eqn:Hr; [done |].
  rewrite IH; try done.
  - intros m Hm. apply ensureSymlink_stays_in_place; [done | |].
    + intros a Ha. apply (above_sibling _ _ m); [|done].
      by apply (proj1 (Forall_forall _ _) Hnames).
    + by apply Hplace, list_elem_of_further.
  - intros m Hm. by apply Hk, list_elem_of_further.
Qed.

(** The entries stay in place while the loop runs. *)
Lemma linkImages_loop_in_place (names : list string) fs made (n : string) :
  Forall resolves names ->
  (forall m, m ∈ names -> fs.in_place fs (assetsAbs +:+ "/" +:+ m) = true) ->
  Forall links.entry_name names ->
  links.entry_name n ->
  fs.in_place fs (assetsAbs +:+ "/" +:+ n) = true ->
  fs.in_place (fs.fs_after (loop names fs made)) (assetsAbs +:+ "/" +:+ n) = true.
Proof.
  intros Hres Hplace Hnames Hname. apply in_place_agree.
  intros a Ha. apply linkImages_loop_outside; try done.
  intros m Hm. by apply (above_sibling _ _ n).
Qed.

Lemma linkImages_loop_ok (names : list string) fs made :
  NoDup names -> Forall links.entry_name names -> Forall resolves names ->
  (forall n, n ∈ names -> fs.in_place fs (assetsAbs +:+ "/" +:+ n) = true) ->
  fs.err (loop names fs made) = None ->
  forall n, n ∈ names ->
    fs.fs_after (loop names fs made) !! (assetsAbs +:+ "/" +:+ n)
    = Some (fs.Symlink (imagesAbs +:+ "/" +:+ n)).
Proof.
  intros Hnodup Hnames Hres. revert fs made.
  induction names as [|n names IH]; intros fs made Hplace Herr m Hm.
  { by apply elem_of_nil in Hm. }
  apply NoDup_cons in Hnodup as [Hn Hnodup].
  pose proof Hnames as Hnames'. pose proof Hres as Hres'.
  apply Forall_cons in Hnames' as [Hname Hnames'].
  apply Forall_cons in Hres' as [[HS HD] Hres'].
  assert (Hpn : fs.in_place fs (assetsAbs +:+ "/" +:+ n) = true)
    by apply Hplace, list_elem_of_here.
  simpl in *. rewrite HS, HD in *.
  set (r := fs.ensureSymlink fs (imagesAbs +:+ "/" +:+ n) (assetsAbs +:+ "/" +:+ n)) in *.
  destruct (fs.err r) as [e|] eqn:Hr; [done |].
  assert (Hplace' : forall m, m ∈ names ->
            fs.in_place (fs.fs_after r) (assetsAbs +:+ "/" +:+ m) = true).
  { intros m' Hm'. apply ensureSymlink_stays_in_place; [done | |].
    - intros a Ha. apply (above_sibling _ _ m'); [|done].
      by apply (proj1 (Forall_forall _ _) Hnames').
    - by apply Hplace, list_elem_of_further. }
  apply elem_of_cons in Hm as [->|Hm]; [|by apply IH].
  rewrite linkImages_loop_outside; try done.
  - by apply ensureSymlink_ok_links.
  - intros m Hm. apply below_sibling; [by intros -> | done].
Qed.

(** [linkImages] links every entry of the images directory, the hidden
    ones too.  Let the entries of the assets directory be in place (the
    directory exists and is reached through directories).  When
    [linkImages] returns no error, the assets directory has a link for each
    entry of the listing, pointing at the entry, and every path that is not
    one of these links or below one is as before. *)
Theorem linkImages_links_every_entry (fs : gmap string fs.Node) (names : list string) :
  ReadDir fs (ContentDir +:+ "/images") = inr names ->
  NoDup names -> Forall links.entry_name names -> Forall resolves names ->
  (forall n, n ∈ names -> fs.in_place fs (assetsAbs +:+ "/" +:+ n) = true) ->
  fs.err (linkImages fs) = None ->
  (forall n, n ∈ names ->
     fs.links_to (fs.fs_after (linkImages fs))
       (assetsAbs +:+ "/" +:+ n) (imagesAbs +:+ "/" +:+ n)) /\
  (forall k, (forall n, n ∈ names -> fs.below (assetsAbs +:+ "/" +:+ n) k = false) ->
     fs.fs_after (linkImages fs) !! k = fs !! k).
Proof.
  unfold links.linkImages. intros -> Hnodup Hnames Hres Hplace Herr. split.
  - intros n Hn. apply in_place_links_to.
    + apply linkImages_loop_in_place; try done; [|by apply Hplace].
      by apply (proj1 (Forall_forall _ _) Hnames).
    + by apply linkImages_loop_ok.
  - intros k Hk. by apply linkImages_loop_outside.
Qed.

(** [linkImages] stops at the first entry that cannot be linked: it
    returns the error of that entry with what the call for it has left,
    and the entries listed after it are not looked at.  Where the link of
    the entry is in place, the call for it has changed nothing: the entries
    listed before have been dealt with, and that is all. *)
Theorem linkImages_stops_at_first_error (fs : gmap string fs.Node)
    (before after : list string) (n : string) (e : fs.Errno) :
  ReadDir fs (ContentDir +:+ "/images") = inr (before ++ n :: after) ->
  resolves n ->
  let r0 := loop before fs [] in
  let r := fs.ensureSymlink (fs.fs_after r0)
             (imagesAbs +:+ "/" +:+ n) (assetsAbs +:+ "/" +:+ n) in
  fs.err r0 = None ->
  fs.err r = Some e ->
  linkImages fs
  = {| fs.err := Some e; fs.fs_after := fs.fs_after r;
       fs.mutations := fs.mutations r0 ++ fs.mutations r |} /\
  (fs.in_place (fs.fs_after r0) (assetsAbs +:+ "/" +:+ n) = true ->
   linkImages fs
   = {| fs.err := Some e; fs.fs_after := fs.fs_after r0; fs.mutations := fs.mutations r0 |}).
Proof.
  intros HR [HS HD] r0 r Hok Herr.
  assert (Hstop : linkImages fs
            = {| fs.err := Some e; fs.fs_after := fs.fs_after r;
                 fs.mutations := fs.mutations r0 ++ fs.mutations r |}).
  { unfold links.linkImages. rewrite HR.
    rewrite linkImages_loop_app. cbv zeta. fold r0. rewrite Hok.
    simpl. rewrite HS, HD. fold r. by rewrite Herr. }
  split; [done |]. intros Hp. rewrite Hstop.
  destruct (ensureSymlink_error_keeps _ _ _ _ Hp (entry_path_is_name _ _) Herr) as [H1 H2].
  fold r in H1, H2. by rewrite H1, H2, app_nil_r.
Qed.

(** With every link found and resolving, [linkImages] changes nothing:
    a build run again over the same images makes no call that changes the
    file system. *)
Theorem linkImages_again_is_quiet (fs : gmap string fs.Node) (names : list string) :
  ReadDir fs (ContentDir +:+ "/images") = inr names ->
  Forall resolves names ->
  (forall n, n ∈ names ->
     fs.links_to fs (assetsAbs +:+ "/" +:+ n) (imagesAbs +:+ "/" +:+ n) /\
     fs.Stat fs (assetsAbs +:+ "/" +:+ n) = None) ->
  linkImages fs = {| fs.err := None; fs.fs_after := fs; fs.mutations := [] |}.
Proof.
  unfold links.linkImages. intros -> Hres Hplace.
  generalize (@nil fs.Mutation) as made.
  induction names as [|n names IH]; intros made; simpl; [done |].
  apply Forall_cons in Hres as [[HS HD] Hres].
  destruct (Hplace n) as [Hdest Hstat]; [apply list_elem_of_here |].
  rewrite HS, HD, (ensureSymlink_link_found _ _ _ Hdest Hstat). simpl.
  rewrite app_nil_r. apply IH; [done |].
  intros m Hm. by apply Hplace, list_elem_of_further.
Qed.

End LinksFacts.

Section LinkJobs.
Variable Abs : string -> fs.Errno + string.
Variable Join : list string -> string.
Variable ReadDir : gmap string fs.Node -> string -> fs.Errno + list string.
Variable ContentDir TargetDir : string.
Variable fontsAbs imagesAbs assetsAbs : string.

Local Abbreviation linkFonts := (links.linkFonts Abs Join ContentDir TargetDir).
Local Abbreviation linkImages := (links.linkImages Abs ReadDir ContentDir TargetDir).

(** The two link jobs are not independent when the images directory has an
    entry named [fonts]: both make the link [assets/fonts], [linkFonts] to
    the fonts directory and [linkImages] to the entry, and the one that runs
    last leaves its link.  The result of the build then depends on the
    order in which the pool runs the two jobs.  The entries of the assets
    directory are taken to be in place. *)
Theorem link_jobs_share_fonts_destination (fs : gmap string fs.Node) (names : list string) :
  Abs (Join [ContentDir; "fonts"]) = inr fontsAbs ->
  Abs (Join [TargetDir; "assets"; "fonts"]) = inr (assetsAbs +:+ "/" +:+ "fonts") ->
  (forall fs', ReadDir fs' (ContentDir +:+ "/images") = inr names) ->
  "fonts" ∈ names ->
  NoDup names -> Forall links.entry_name names ->
  Forall (links.resolves Abs ContentDir TargetDir imagesAbs assetsAbs) names ->
  (forall n, n ∈ names -> fs.in_place fs (assetsAbs +:+ "/" +:+ n) = true) ->
  (fs.err (linkImages (fs.fs_after (linkFonts fs))) = None ->
   fs.links_to (fs.fs_after (linkImages (fs.fs_after (linkFonts fs))))
     (assetsAbs +:+ "/" +:+ "fonts") (imagesAbs +:+ "/" +:+ "fonts")) /\
  (fs.err (linkFonts (fs.fs_after (linkImages fs))) = None ->
   fs.links_to (fs.fs_after (linkFonts (fs.fs_after (linkImages fs))))
     (assetsAbs +:+ "/" +:+ "fonts") fontsAbs).
Proof.
  intros HS HD HR Hfonts Hnodup Hnames Hres Hplace.
  assert (Hname : links.entry_name "fonts")
    by (by apply (proj1 (Forall_forall _ _) Hnames)).
  split.
  - intros Herr. unfold links.linkImages in *. rewrite HR in *.
    unfold links.linkFonts in *. rewrite HS, HD in *.
    set (fs1 := fs.fs_after (fs.ensureSymlink fs fontsAbs (assetsAbs +:+ "/" +:+ "fonts"))) in *.
    assert (Hplace1 : forall n, n ∈ names ->
              fs.in_place fs1 (assetsAbs +:+ "/" +:+ n) = true).
    { intros n Hn. apply ensureSymlink_stays_in_place; [by apply Hplace | | by apply Hplace].
      intros a Ha. apply (above_sibling _ _ n); [|done].
      by apply (proj1 (Forall_forall _ _) Hnames). }
    apply in_place_links_to.
    + apply (linkImages_loop_in_place Abs ContentDir TargetDir imagesAbs assetsAbs);
        try done. by apply Hplace1.
    + by apply (linkImages_loop_ok Abs ContentDir TargetDir imagesAbs assetsAbs).
  - unfold links.linkFonts. rewrite HS, HD. intros Herr.
    assert (Hp2 : fs.in_place (fs.fs_after (linkImages fs))
                    (assetsAbs +:+ "/" +:+ "fonts") = true).
    { unfold links.linkImages. rewrite HR.
      apply (linkImages_loop_in_place Abs ContentDir TargetDir imagesAbs assetsAbs);
        try done. by apply Hplace. }
    apply in_place_links_to.
    + apply ensureSymlink_stays_in_place; [done | | done].
      intros a. apply above_not_below.
    + by apply ensureSymlink_ok_links.
Qed.

End LinkJobs.

Lemma examples_resolve :
  Forall (links.resolves examples.Abs "/site/content" "/site/public"
            "/site/content/images" "/site/public/assets") examples.images.
Proof. repeat constructor. Qed.

Lemma examples_entry_names : Forall links.entry_name examples.images.
Proof.
  repeat constructor; unfold links.entry_name; simpl;
    rewrite !elem_of_cons, elem_of_nil; intros H;
    repeat (destruct H as [H|H]; [discriminate |]); done.
Qed.

Lemma examples_in_place (n : string) :
  n ∈ examples.images ->
  fs.in_place examples.fs_site ("/site/public/assets" +:+ "/" +:+ n) = true.
Proof.
  unfold examples.images. rewrite !elem_of_cons, elem_of_nil.
  intros [->|[->|[]]]; vm_compute; reflexivity.
Qed.

Lemma linkImages_links_every_entry_witness :
  let r := links.linkImages examples.Abs examples.ReadDir_images
             "/site/content" "/site/public" examples.fs_site in
  fs.err r = None /\
  fs.links_to (fs.fs_after r) "/site/public/assets/.DS_Store"
    "/site/content/images/.DS_Store" /\
  fs.links_to (fs.fs_after r) "/site/public/assets/logo.png"
    "/site/content/images/logo.png".
Proof.
  assert (Herr : fs.err (links.linkImages examples.Abs examples.ReadDir_images
                   "/site/content" "/site/public" examples.fs_site) = None)
    by (vm_compute; reflexivity).
  assert (Hnodup : NoDup examples.images).
  { unfold examples.images. apply NoDup_cons. split.
    - rewrite list_elem_of_singleton. discriminate.
    - apply NoDup_singleton. }
  destruct (linkImages_links_every_entry examples.Abs examples.ReadDir_images
              "/site/content" "/site/public" "/site/content/images" "/site/public/assets"
              examples.fs_site examples.images eq_refl Hnodup
              examples_entry_names examples_resolve examples_in_place Herr) as [Hlinks _].
  split; [exact Herr |]. split.
  - apply (Hlinks ".DS_Store"). apply list_elem_of_here.
  - apply (Hlinks "logo.png"). apply list_elem_of_further, list_elem_of_here.
Defined.

Lemma linkImages_stops_at_first_error_witness :
  let r := links.linkImages examples.Abs examples.ReadDir_images
             "/site/content" "/site/public" examples.fs_site_blocked in
  fs.err r = Some fs.EINVAL /\
  fs.fs_after r !! "/site/public/assets/logo.png" = Some fs.Dir /\
  fs.mutations r = [fs.DidRemoveAll "/site/public/assets/.DS_Store";
                    fs.DidSymlink "/site/content/images/.DS_Store"
                      "/site/public/assets/.DS_Store"].
Proof.
  pose proof (linkImages_stops_at_first_error examples.Abs examples.ReadDir_images
                "/site/content" "/site/public" "/site/content/images" "/site/public/assets"
                examples.fs_site_blocked [".DS_Store"] [] "logo.png" fs.EINVAL eq_refl
                (conj eq_refl eq_refl)) as Hstop.
  cbv zeta in Hstop. cbv zeta.
  destruct Hstop as [_ Hstop]; [vm_compute; reflexivity | vm_compute; reflexivity |].
  rewrite Hstop; [|vm_compute; reflexivity].
  repeat split; vm_compute; reflexivity.
Defined.

Lemma linkImages_again_is_quiet_witness :
  let fs1 := fs.fs_after (links.linkImages examples.Abs examples.ReadDir_images
                            "/site/content" "/site/public" examples.fs_site) in
  fs.mutations (links.linkImages examples.Abs examples.ReadDir_images
                  "/site/content" "/site/public" fs1) = [].
Proof.
  intros fs1.
  rewrite (linkImages_again_is_quiet examples.Abs examples.ReadDir_images
             "/site/content" "/site/public" "/site/content/images" "/site/public/assets"
             fs1 examples.images eq_refl examples_resolve); [reflexivity |].
  intros n Hn. unfold examples.images in Hn.
  rewrite !elem_of_cons, elem_of_nil in Hn.
  destruct Hn as [->|[->|[]]]; split; vm_compute; reflexivity.
Defined.

Lemma link_jobs_share_fonts_destination_witness :
  let linkFonts := links.linkFonts examples.Abs examples.Join "/site/content" "/site/public" in
  let linkImages := links.linkImages examples.Abs examples.ReadDir_with_fonts
                      "/site/content" "/site/public" in
  fs.links_to (fs.fs_after (linkImages (fs.fs_after (linkFonts examples.fs_site_with_fonts))))
    "/site/public/assets/fonts" "/site/content/images/fonts" /\
  fs.links_to (fs.fs_after (linkFonts (fs.fs_after (linkImages examples.fs_site_with_fonts))))
    "/site/public/assets/fonts" "/site/content/fonts".
Proof.
  assert (Hnodup : NoDup ["fonts"; "logo.png"]).
  { apply NoDup_cons. split.
    - rewrite list_elem_of_singleton. discriminate.
    - apply NoDup_singleton. }
  assert (Hnames : Forall links.entry_name ["fonts"; "logo.png"]).
  { repeat constructor; unfold links.entry_name; simpl;
      rewrite !elem_of_cons, elem_of_nil; intros H;
      repeat (destruct H as [H|H]; [discriminate |]); done. }
  assert (Hres : Forall (links.resolves examples.Abs "/site/content" "/site/public"
                           "/site/content/images" "/site/public/assets")
                   ["fonts"; "logo.png"]) by repeat constructor.
  assert (Hplace : forall n, n ∈ ["fonts"; "logo.png"] ->
            fs.in_place examples.fs_site_with_fonts
              ("/site/public/assets" +:+ "/" +:+ n) = true).
  { intros n. rewrite !elem_of_cons, elem_of_nil.
    intros [->|[->|[]]]; vm_compute; reflexivity. }
  destruct (link_jobs_share_fonts_destination examples.Abs examples.Join
              examples.ReadDir_with_fonts "/site/content" "/site/public"
              "/site/content/fonts" "/site/content/images" "/site/public/assets"
              examples.fs_site_with_fonts ["fonts"; "logo.png"] eq_refl eq_refl
              (fun _ => eq_refl) (list_elem_of_here _ _) Hnodup Hnames Hres Hplace)
    as [Himages Hfonts].
  split; [apply Himages | apply Hfonts]; vm_compute; reflexivity.
Defined.


(** * Facts about [compileArticle] and [renderView] *)
Section ArticleFacts.
Context {World Template File : Type}.
Variable ReadFile : World -> string -> GoError + string.
Variable markdown_Render : string -> string.
Variable toc_Render : string -> GoError + string.
Variable ace_Load : World -> string -> string -> GoError + Template.
Variable os_Create : World -> string -> (GoError + File) * World.
Variable Execute :
  Template -> File -> gmap string build.Value -> World -> option GoError * World.
Variable Flush : File -> World -> option GoError * World.
Variable Close : File -> World -> option GoError * World.
Variable Join : list string -> string.
Variable ContentDir TargetDir LayoutsDir MainLayout Release : string.
Variable conf : build.Conf.

Local Abbreviation renderView :=
  (article.renderView ace_Load os_Create Execute Flush Close).
Local Abbreviation compileArticle :=
  (article.compileArticle ReadFile markdown_Render toc_Render ace_Load os_Create
     Execute Flush Close Join ContentDir TargetDir LayoutsDir MainLayout Release conf).

(** What [compileArticle] hands to [renderView] once the article is read
    and its table of contents made: the view [article] in the main layout,
    seven locals (the content, the table of contents, the title, which is
    the file name without its extension, and the four other defaults), and
    a target named after the title, [index.html] for the title [index];
    the target is never named [index]. *)
Theorem compileArticle_renders (articleFile source tocContent : string) (w : World) :
  ReadFile w (Join [ContentDir; "articles"; articleFile]) = inr source ->
  toc_Render (markdown_Render source) = inr tocContent ->
  exists out,
    compileArticle articleFile w
    = renderView MainLayout (Join [LayoutsDir; "article"]) (Join [TargetDir; out])
        (<["Content" := build.VString (markdown_Render source)]>
         (<["TOC" := build.VString tocContent]>
         (<["GoogleAnalyticsID" := build.VString (build.GoogleAnalyticsID conf)]>
         (<["LocalFonts" := build.VBool (build.LocalFonts conf)]>
         (<["Release" := build.VString Release]>
         (<["Title" := build.VString (paths.trimExtension articleFile)]>
         (<["ViewportWidth" := build.VString "device-width"]> ∅))))))) w /\
    out <> "index" /\
    (out = paths.trimExtension articleFile \/
     paths.trimExtension articleFile = "index" /\ out = "index.html").
Proof.
  intros Hread Htoc. unfold article.compileArticle. rewrite Hread, Htoc.
  rewrite getLocals_union, <- !insert_union_l, (left_id_L ∅ (∪)).
  destruct (String.eqb (paths.trimExtension articleFile) "index") eqn:Hname.
  - apply String.eqb_eq in Hname. rewrite Hname.
    exists "index.html". split; [done |]. split; [done | by right].
  - apply String.eqb_neq in Hname.
    exists (paths.trimExtension articleFile). split; [done |]. split; [done | by left].
Qed.

(** [compileArticle] writes nothing before the article is read, its table
    of contents is made and the template is loaded: when one of the three
    fails, the error is returned and the world is as before, the target
    neither created nor truncated. *)
Theorem compileArticle_fails_before_writing (articleFile : string) (w : World) :
  (forall e, ReadFile w (Join [ContentDir; "articles"; articleFile]) = inl e ->
     compileArticle articleFile w = (Some e, w)) /\
  (forall source e,
     ReadFile w (Join [ContentDir; "articles"; articleFile]) = inr source ->
     toc_Render (markdown_Render source) = inl e ->
     compileArticle articleFile w = (Some e, w)) /\
  (forall source tocContent e,
     ReadFile w (Join [ContentDir; "articles"; articleFile]) = inr source ->
     toc_Render (markdown_Render source) = inr tocContent ->
     ace_Load w MainLayout (Join [LayoutsDir; "article"]) = inl e ->
     compileArticle articleFile w = (Some e, w)).
Proof.
  unfold article.compileArticle, article.renderView. repeat split.
  - by intros e ->.
  - by intros source e -> ->.
  - by intros source tocContent e -> -> ->.
Qed.

(** Once the target is created, [renderView] returns what
    [template.Execute] returned and nothing else: the buffer is flushed and
    the file closed in this order whether or not the execution failed, and
    an error of the flush or of the close is not reported. *)
Theorem renderView_reports_execute_only (layout view target : string)
    (locals : gmap string build.Value) (w w1 : World) template file :
  ace_Load w layout view = inr template ->
  os_Create w target = (inr file, w1) ->
  let executed := Execute template file locals w1 in
  renderView layout view target locals w
  = (executed.1, (Close file (Flush file executed.2).2).2).
Proof.
  intros Hload Hcreate executed. unfold article.renderView.
  rewrite Hload, Hcreate. subst executed.
  destruct (Execute template file locals w1) as [err w2]. simpl.
  destruct (Flush file w2) as [? w3]. simpl. by destruct (Close file w3).
Qed.

End ArticleFacts.

Lemma compileArticle_renders_witness :
  exists out locals,
    article.compileArticle examples.ReadFile examples.markdown_Render examples.toc_Render
      examples.ace_Load examples.os_Create examples.Execute examples.Flush examples.Close
      examples.Join "/site/content" "/site/public" "/site/layouts" "/site/layouts/main"
      "7" testdata.conf "index.md" []
    = article.renderView examples.ace_Load examples.os_Create examples.Execute
        examples.Flush examples.Close "/site/layouts/main"
        (examples.Join ["/site/layouts"; "article"])
        (examples.Join ["/site/public"; out]) locals [] /\
    out = "index.html".
Proof.
  destruct (compileArticle_renders examples.ReadFile examples.markdown_Render
              examples.toc_Render examples.ace_Load examples.os_Create examples.Execute
              examples.Flush examples.Close examples.Join "/site/content" "/site/public"
              "/site/layouts" "/site/layouts/main" "7" testdata.conf
              "index.md" "# Hello" "<ol></ol>" [] eq_refl eq_refl)
    as (out & Heq & _ & [Hout|[_ Hout]]).
  - exfalso. subst out. revert Heq. vm_compute. discriminate.
  - eexists out, _. split; [exact Heq | exact Hout].
Defined.

Lemma compileArticle_fails_before_writing_witness :
  article.compileArticle examples.ReadFile_failing examples.markdown_Render
    examples.toc_Render examples.ace_Load examples.os_Create examples.Execute
    examples.Flush examples.Close examples.Join "/site/content" "/site/public"
    "/site/layouts" "/site/layouts/main" "7" testdata.conf "hello.md" []
  = (Some "open: no such file or directory", []).
Proof.
  apply (proj1 (compileArticle_fails_before_writing examples.ReadFile_failing
    examples.markdown_Render examples.toc_Render examples.ace_Load examples.os_Create
    examples.Execute examples.Flush examples.Close examples.Join "/site/content"
    "/site/public" "/site/layouts" "/site/layouts/main" "7" testdata.conf "hello.md" [])).
  reflexivity.
Defined.

Lemma renderView_reports_execute_only_witness :
  article.renderView examples.ace_Load examples.os_Create examples.Execute
    examples.Flush examples.Close "/site/layouts/main" "/site/layouts/article"
    "/site/public/hello" ∅ []
  = (None, [("/site/public/hello", "/site/layouts/article"); ("/site/public/hello", "")]).
Proof.
  rewrite (renderView_reports_execute_only examples.ace_Load examples.os_Create
             examples.Execute examples.Flush examples.Close "/site/layouts/main"
             "/site/layouts/article" "/site/public/hello" ∅ []
             [("/site/public/hello", "")] "/site/layouts/article" "/site/public/hello"
             eq_refl eq_refl).
  reflexivity.
Defined.


(** * Further facts about [main] *)
Section MainMore.
Context {World : Type}.
Variable call : build.Closure -> World -> option GoError * World.
Variable Decode : World -> GoError + build.Conf.
Variable CreateOutputDirs : World -> option GoError * World.
Variable ReadDir : World -> string -> GoError + list string.
Variable articlesPath : string.

Local Abbreviation main := (build.main call Decode CreateOutputDirs ReadDir articlesPath).

(** The tasks [main] hands to [runTasks]. *)
Lemma main_tasks sched (w : World) res r :
  main sched w = Some res -> build.ran res = Some r ->
  exists conf w1 files,
    Decode w = inr conf /\ CreateOutputDirs w = (None, w1) /\
    ReadDir w1 articlesPath = inr files /\
    build.runTasks call (build.Concurrency conf) sched
      ([pool.NewTask build.LinkFonts; pool.NewTask build.LinkImages;
        pool.NewTask build.CompileJavascripts; pool.NewTask build.CompileStylesheets]
       ++ map (fun name => pool.NewTask (build.CompileArticle name))
            (List.filter (fun name => negb (build.isHidden name)) files)) w1 = Some r.
Proof.
  unfold build.main.
  destruct (Decode w) as [e|conf] eqn:HD; [by intros [= <-] |].
  destruct (CreateOutputDirs w) as [[e|] w1] eqn:HC; [by intros [= <-] |].
  destruct (ReadDir w1 articlesPath) as [e|files] eqn:HR.
  { unfold build.tasksForArticles. rewrite HR. by intros [= <-]. }
  rewrite (tasksForArticles_listing _ _ _ _ HR).
  destruct (build.runTasks _ _ _ _ _) as [r'|] eqn:Hrun; [|done].
  intros [= <-] [= <-]. exists conf, w1, files.
  split; [done |]. split; [done |]. split; [done |]. exact Hrun.
Qed.

(** When [main] gets to run its tasks, every job it built has been called
    exactly once by the time it exits: the four fixed jobs, also when the
    articles directory is empty, and one job for each entry of the listing
    that is not hidden, in the order of the listing.  With at least one
    worker configured [main] does exit (last part). *)
Theorem main_runs_every_job sched (w : World) res r :
  main sched w = Some res -> build.ran res = Some r ->
  exists conf w1 files,
    Decode w = inr conf /\ CreateOutputDirs w = (None, w1) /\
    ReadDir w1 articlesPath = inr files /\
    pool.f <$> build.tasks_after r
    = [build.LinkFonts; build.LinkImages; build.CompileJavascripts;
       build.CompileStylesheets]
      ++ (build.CompileArticle <$>
            List.filter (fun name => negb (build.isHidden name)) files) /\
    Forall (fun t => pool.runs t = 1 /\ pool.is_set (pool.outcome t) = true)
      (build.tasks_after r) /\
    ((1 <= build.Concurrency conf)%Z ->
     forall sched0, exists more, is_Some (main (sched0 ++ more) w)).
Proof.
  intros Hmain Hran.
  destruct (main_tasks _ _ _ _ Hmain Hran) as (conf & w1 & files & HD & HC & HR & Hrun).
  exists conf, w1, files. split; [done |]. split; [done |]. split; [done |].
  assert (Hreturns : (1 <= build.Concurrency conf)%Z ->
            forall sched0, exists more, is_Some (main (sched0 ++ more) w)).
  { intros Hconc sched0. apply main_returns. intros conf' Hconf'.
    rewrite HD in Hconf'. by injection Hconf' as <-. }
  cut (pool.f <$> build.tasks_after r
       = [build.LinkFonts; build.LinkImages; build.CompileJavascripts;
          build.CompileStylesheets]
         ++ (build.CompileArticle <$>
               List.filter (fun name => negb (build.isHidden name)) files) /\
       Forall (fun t => pool.runs t = 1 /\ pool.is_set (pool.outcome t) = true)
         (build.tasks_after r)).
  { intros [? ?]. by repeat split. }
  destruct (runTasks_Some _ _ _ _ _ _ Hrun) as (Hall & _).
  remember (build.tasks_after r) as after eqn:Hafter. clear Hafter Hrun.
  assert (Hnew : Forall (fun t : pool.Task build.Closure => pool.runs t = 0)
            ([pool.NewTask build.LinkFonts; pool.NewTask build.LinkImages;
              pool.NewTask build.CompileJavascripts; pool.NewTask build.CompileStylesheets]
             ++ map (fun name => pool.NewTask (build.CompileArticle name))
                  (List.filter (fun name => negb (build.isHidden name)) files))).
  { apply Forall_app. split; [by repeat constructor |].
    apply Forall_forall. intros t Ht. apply list_elem_of_In, in_map_iff in Ht.
    by destruct Ht as (name & <- & _). }
  assert (Hf : pool.f <$> after
               = pool.f <$> ([pool.NewTask build.LinkFonts; pool.NewTask build.LinkImages;
                   pool.NewTask build.CompileJavascripts;
                   pool.NewTask build.CompileStylesheets]
                  ++ map (fun name => pool.NewTask (build.CompileArticle name))
                       (List.filter (fun name => negb (build.isHidden name)) files))).
  { clear Hnew. induction Hall as [|t0 t ts0 ts (Hft & _) _ IH]; [done |].
    rewrite !fmap_cons. by f_equal. }
  split.
  - rewrite Hf, fmap_app. f_equal. rewrite <- list_fmap_compose. done.
  - clear Hf. induction Hall as [|t0 t ts0 ts (Hft & Hruns & w' & Hout) _ IH]; [done |].
    apply Forall_cons in Hnew as [Hzero Hnew]. constructor; [|by apply IH].
    split; [lia |]. rewrite Hout. by destruct (call (pool.f t0) w').1.
Qed.

(** The exit status of [main] is 0 or 1, and it is 0 exactly when [main]
    got to run its tasks and none of them failed: a failure of the start-up
    or of a single job among many gives 1.  With at least one worker
    configured [main] does exit (last part). *)
Theorem main_exit_status sched (w : World) res :
  main sched w = Some res ->
  (build.exit_status (build.exit res) = 0%Z \/ build.exit_status (build.exit res) = 1%Z) /\
  (build.exit_status (build.exit res) = 0%Z <->
   exists r, build.ran res = Some r /\
             Forall (fun t => pool.Err t = None) (build.tasks_after r)) /\
  ((forall conf, Decode w = inr conf -> (1 <= build.Concurrency conf)%Z) ->
   forall sched0, exists more, is_Some (main (sched0 ++ more) w)).
Proof.
  intros Hmain.
  cut ((build.exit_status (build.exit res) = 0%Z \/
        build.exit_status (build.exit res) = 1%Z) /\
       (build.exit_status (build.exit res) = 0%Z <->
        exists r, build.ran res = Some r /\
                  Forall (fun t => pool.Err t = None) (build.tasks_after r))).
  { intros [? ?]. split; [done |]. split; [done |].
    intros Hconc sched0. by apply main_returns. }
  destruct (build.ran res) as [r|] eqn:Hran.
  - destruct (main_ran _ _ _ _ _ _ _ _ _ Hmain Hran) as (Hexit & conc & tasks & w1 & Hrun).
    destruct (runTasks_Some _ _ _ _ _ _ Hrun) as (_ & _ & Hok & _).
    rewrite Hexit. destruct (build.ok r) eqn:Hokr; simpl.
    + split; [by left |]. split; [|done]. intros _. exists r. split; [done |].
      symmetry in Hok. apply bool_decide_eq_true in Hok. by apply failures_nil_iff.
    + split; [by right |]. split; [done |]. intros (r' & [= <-] & Hnone).
      apply failures_nil_iff in Hnone. symmetry in Hok.
      by apply bool_decide_eq_false in Hok.
  - destruct (main_not_ran _ _ _ _ _ _ _ _ Hmain Hran) as [e ->]. simpl.
    split; [by right |]. split; [done |]. by intros (r & ? & _).
Qed.

End MainMore.

Lemma main_runs_every_job_witness :
  exists res r,
    build.main testdata.callC testdata.Decode testdata.CreateOutputDirs testdata.ReadDir
      "content/articles" (testdata.round_robin 3 7) 0 = Some res /\
    build.ran res = Some r /\
    pool.f <$> build.tasks_after r
    = [build.LinkFonts; build.LinkImages; build.CompileJavascripts;
       build.CompileStylesheets; build.CompileArticle "broken.md";
       build.CompileArticle "hello.md"].
Proof.
  destruct (build.main testdata.callC testdata.Decode testdata.CreateOutputDirs
              testdata.ReadDir "content/articles" (testdata.round_robin 3 7) 0)
    as [res|] eqn:Hmain; [|vm_compute in Hmain; discriminate].
  destruct (build.ran res) as [r|] eqn:Hran.
  - exists res, r. split; [reflexivity |]. split; [exact Hran |].
    destruct (main_runs_every_job _ _ _ _ _ _ _ _ _ Hmain Hran)
      as (conf & w1 & files & _ & HC & HR & Hf & _ & _).
    injection HC as <-. injection HR as <-. exact Hf.
  - exfalso. revert Hran. vm_compute in Hmain. injection Hmain as <-. discriminate.
Defined.

Lemma main_exit_status_witness :
  exists res,
    build.main testdata.callC testdata.Decode testdata.CreateOutputDirs testdata.ReadDir
      "content/articles" (testdata.round_robin 3 7) 0 = Some res /\
    (build.exit_status (build.exit res) = 0%Z \/ build.exit_status (build.exit res) = 1%Z).
Proof.
  destruct (build.main testdata.callC testdata.Decode testdata.CreateOutputDirs
              testdata.ReadDir "content/articles" (testdata.round_robin 3 7) 0)
    as [res|] eqn:Hmain; [|vm_compute in Hmain; discriminate].
  exists res. split; [reflexivity |].
  exact (proj1 (main_exit_status _ _ _ _ _ _ _ _ Hmain)).
Defined.
